(** * ScriptEngine: a shallow embedding of libraries/script-engine/src/ScriptEngine.cpp

    The development follows the C++ source member by member.  One
    [ScriptEngine] record holds the data members of a script host; the
    class statics ([_stoppingAllScripts], [_doneRunningThisScript] and the
    registry [_allKnownScriptEngines]) live in [Statics] and [World].
    Qt signals (emit ...) and datagrams handed to the node list are
    appended to a per-engine trace, so that what the code made observable
    can be stated in theorems.

    Machine integers are [Z] with the wrap-around written out; hash maps
    are stdpp [gmap]s; raw byte buffers are lists of [Z] in [0, 256). *)

From Stdlib Require Import ZArith Lia.
From stdpp Require Import base option list gmap numbers.

Local Open Scope Z_scope.

(** ** Machine integers *)

Module MachineInt.

(** [int] (32-bit, two's complement). *)
Definition int32 (x : Z) : Z := (x + 2 ^ 31) mod 2 ^ 32 - 2 ^ 31.

(** [int16_t]. *)
Definition int16 (x : Z) : Z := (x + 2 ^ 15) mod 2 ^ 16 - 2 ^ 15.

(** [quint16]. *)
Definition quint16 (x : Z) : Z := x mod 2 ^ 16.

(** [size_t] on the 64-bit targets the project builds for. *)
Definition size_t (x : Z) : Z := x mod 2 ^ 64.

Definition INT_MAX : Z := 2 ^ 31 - 1.

End MachineInt.
Export MachineInt.

Arguments int32 : simpl never.
Arguments int16 : simpl never.
Arguments quint16 : simpl never.
Arguments size_t : simpl never.

(** ** Script values and script behaviour

    The interpreter (QScriptEngine) is an external collaborator.  What the
    host code can observe of a running piece of script is the sequence of
    calls it makes back into the host's script-visible API and the way it
    ends.  A [Script] is that sequence.  A [QScriptValue] is either the
    default-constructed invalid value, a value that is not callable, or a
    function whose body is again a [Script]. *)

(** A [QTimer*].  [new QTimer] hands out addresses from a counter kept in
    the engine, so a pointer identifies one allocation. *)
Abbreviation QTimerPtr := positive.

Inductive Script : Type :=
(** the script ends: its completion value, and the line of the exception
      it left uncaught, if any *)
  | Return (result : QScriptValue) (exception : option Z)
(** Script.setInterval(function, intervalMS) *)
  | CallSetInterval (function : QScriptValue) (intervalMS : Z) (k : Script)
(** Script.setTimeout(function, timeoutMS) *)
  | CallSetTimeout (function : QScriptValue) (timeoutMS : Z) (k : Script)
(** Script.clearInterval(timer) / Script.clearTimeout(timer), both of
      which forward to stopTimer *)
  | CallClearTimer (timer : QTimerPtr) (k : Script)
(** Script.stop() *)
  | CallStop (k : Script)
(** Script.print(message) *)
  | CallPrint (message : list Z) (k : Script)
(** a nested call of ScriptEngine::evaluate made while this script is
      being evaluated, as include() does for every file it has loaded *)
  | CallEvaluate (program : Script) (k : Script)
with QScriptValue : Type :=
  | InvalidValue
  | PlainValue (n : Z)
  | FunctionValue (body : Script).

(** QScriptValue::isValid *)
Definition isValid (v : QScriptValue) : bool :=
  match v with InvalidValue => false | _ => true end.

(** ** Collaborator data *)

Abbreviation QUuid := N.

(** A QTimer as far as the code looks at it. *)
Record QTimer : Type := mkQTimer {
  isSingleShot : bool;
  isActive : bool;
  interval : Z
}.

(** AvatarData: the serialised avatar state, and the raw bytes of the
    position (glm::vec3) and head orientation (glm::quat). *)
Record AvatarData : Type := mkAvatarData {
  toByteArray : list Z;
  getPosition : list Z;
  getHeadOrientation : list Z
}.

Inductive PacketType : Type :=
  | PacketTypeAvatarData
  | PacketTypeSilentAudioFrame
  | PacketTypeMicrophoneAudioNoEcho.

Inductive NodeType : Type := AvatarMixer | AudioMixer | OtherNode.

Record Node : Type := mkNode {
  getType : NodeType;
  getUUID : QUuid
}.

(** What an engine makes observable: the signals it emits, the packets it
    hands to the node list, and the calls it makes into script functions. *)
Inductive Event : Type :=
  | evaluationFinished (result : QScriptValue) (hadError : bool)
  | runningStateChanged
  | errorMessage (line : Z)
  | printedMessage (message : list Z)
  | update
  | scriptEnding
  | finished
  | doneRunning
  | timerFunctionCall (timer : QTimerPtr)
  | broadcastToNodes (packet : list Z) (destination : NodeType)
  | writeDatagram (packet : list Z) (node : QUuid).

(** ** The engine *)

Record ScriptEngine : Type := mkScriptEngine {
  _scriptContents : Script;
  _isFinished : bool;
  _isRunning : bool;
  _isInitialized : bool;
  _isAvatar : bool;
  _timerFunctionMap : gmap positive QScriptValue;
  _isListeningToAudioStream : bool;
  _avatarSound : option (list Z);
  _numAvatarSoundSentBytes : Z;
  _avatarData : option AvatarData;
  _evaluatesPending : Z;
  _outgoingScriptAudioSequenceNumbers : gmap N Z;
(** the uncaught-exception slot of the QScriptEngine base class *)
  uncaughtException : option Z;
(** the QTimer children of this engine, and the allocation counter *)
  timers : gmap positive QTimer;
  nextTimer : positive;
(** everything emitted so far, oldest first *)
  trace : list Event;
(** every value [_evaluatesPending] was assigned, oldest first *)
  pendingWrites : list Z
}.

(** The class statics read and written by the member functions. *)
Record Statics : Type := mkStatics {
  _stoppingAllScripts : bool;
  _doneRunningThisScript : bool
}.

Section Setters.
Variable s : ScriptEngine.

Definition set_isFinished (b : bool) : ScriptEngine :=
    mkScriptEngine (_scriptContents s) b (_isRunning s) (_isInitialized s)
      (_isAvatar s) (_timerFunctionMap s) (_isListeningToAudioStream s)
      (_avatarSound s) (_numAvatarSoundSentBytes s) (_avatarData s)
      (_evaluatesPending s) (_outgoingScriptAudioSequenceNumbers s)
      (uncaughtException s) (timers s) (nextTimer s) (trace s)
      (pendingWrites s).

Definition set_isRunning (b : bool) : ScriptEngine :=
    mkScriptEngine (_scriptContents s) (_isFinished s) b (_isInitialized s)
      (_isAvatar s) (_timerFunctionMap s) (_isListeningToAudioStream s)
      (_avatarSound s) (_numAvatarSoundSentBytes s) (_avatarData s)
      (_evaluatesPending s) (_outgoingScriptAudioSequenceNumbers s)
      (uncaughtException s) (timers s) (nextTimer s) (trace s)
      (pendingWrites s).

Definition set_isInitialized (b : bool) : ScriptEngine :=
    mkScriptEngine (_scriptContents s) (_isFinished s) (_isRunning s) b
      (_isAvatar s) (_timerFunctionMap s) (_isListeningToAudioStream s)
      (_avatarSound s) (_numAvatarSoundSentBytes s) (_avatarData s)
      (_evaluatesPending s) (_outgoingScriptAudioSequenceNumbers s)
      (uncaughtException s) (timers s) (nextTimer s) (trace s)
      (pendingWrites s).

Definition set_timerFunctionMap (m : gmap positive QScriptValue)
    : ScriptEngine :=
    mkScriptEngine (_scriptContents s) (_isFinished s) (_isRunning s)
      (_isInitialized s) (_isAvatar s) m (_isListeningToAudioStream s)
      (_avatarSound s) (_numAvatarSoundSentBytes s) (_avatarData s)
      (_evaluatesPending s) (_outgoingScriptAudioSequenceNumbers s)
      (uncaughtException s) (timers s) (nextTimer s) (trace s)
      (pendingWrites s).

(** [_avatarSound] and [_numAvatarSoundSentBytes] are always written
      together. *)
Definition set_avatarSound (snd : option (list Z)) (sent : Z)
    : ScriptEngine :=
    mkScriptEngine (_scriptContents s) (_isFinished s) (_isRunning s)
      (_isInitialized s) (_isAvatar s) (_timerFunctionMap s)
      (_isListeningToAudioStream s) snd sent (_avatarData s)
      (_evaluatesPending s) (_outgoingScriptAudioSequenceNumbers s)
      (uncaughtException s) (timers s) (nextTimer s) (trace s)
      (pendingWrites s).

(** An assignment to [_evaluatesPending]; the value is also recorded in
      [pendingWrites]. *)
Definition set_evaluatesPending (n : Z) : ScriptEngine :=
    mkScriptEngine (_scriptContents s) (_isFinished s) (_isRunning s)
      (_isInitialized s) (_isAvatar s) (_timerFunctionMap s)
      (_isListeningToAudioStream s) (_avatarSound s)
      (_numAvatarSoundSentBytes s) (_avatarData s) n
      (_outgoingScriptAudioSequenceNumbers s) (uncaughtException s)
      (timers s) (nextTimer s) (trace s) (pendingWrites s ++ [n]).

Definition set_outgoingScriptAudioSequenceNumbers (m : gmap N Z)
    : ScriptEngine :=
    mkScriptEngine (_scriptContents s) (_isFinished s) (_isRunning s)
      (_isInitialized s) (_isAvatar s) (_timerFunctionMap s)
      (_isListeningToAudioStream s) (_avatarSound s)
      (_numAvatarSoundSentBytes s) (_avatarData s) (_evaluatesPending s) m
      (uncaughtException s) (timers s) (nextTimer s) (trace s)
      (pendingWrites s).

Definition set_uncaughtException (e : option Z) : ScriptEngine :=
    mkScriptEngine (_scriptContents s) (_isFinished s) (_isRunning s)
      (_isInitialized s) (_isAvatar s) (_timerFunctionMap s)
      (_isListeningToAudioStream s) (_avatarSound s)
      (_numAvatarSoundSentBytes s) (_avatarData s) (_evaluatesPending s)
      (_outgoingScriptAudioSequenceNumbers s) e (timers s) (nextTimer s)
      (trace s) (pendingWrites s).

Definition set_timers (m : gmap positive QTimer) (next : positive)
    : ScriptEngine :=
    mkScriptEngine (_scriptContents s) (_isFinished s) (_isRunning s)
      (_isInitialized s) (_isAvatar s) (_timerFunctionMap s)
      (_isListeningToAudioStream s) (_avatarSound s)
      (_numAvatarSoundSentBytes s) (_avatarData s) (_evaluatesPending s)
      (_outgoingScriptAudioSequenceNumbers s) (uncaughtException s) m next
      (trace s) (pendingWrites s).

(** emit / hand a packet over: append to the trace *)
Definition emit (e : Event) : ScriptEngine :=
    mkScriptEngine (_scriptContents s) (_isFinished s) (_isRunning s)
      (_isInitialized s) (_isAvatar s) (_timerFunctionMap s)
      (_isListeningToAudioStream s) (_avatarSound s)
      (_numAvatarSoundSentBytes s) (_avatarData s) (_evaluatesPending s)
      (_outgoingScriptAudioSequenceNumbers s) (uncaughtException s)
      (timers s) (nextTimer s) (trace s ++ [e]) (pendingWrites s).
End Setters.

(** The constructor (lines 74-97), registry insertion apart. *)
Definition newScriptEngine (scriptContents : Script) : ScriptEngine :=
  mkScriptEngine scriptContents false false false false ∅ false None 0 None
    0 ∅ None ∅ 1%positive [] [].

Definition hasUncaughtException (s : ScriptEngine) : bool :=
  bool_decide (is_Some (uncaughtException s)).

Definition clearExceptions (s : ScriptEngine) : ScriptEngine :=
  set_uncaughtException s None.

(** evaluatePending() of the header: an evaluation is in flight. *)
Definition evaluatePending (s : ScriptEngine) : bool :=
  bool_decide (0 < _evaluatesPending s).

(** ** Timer subsystem (lines 656-712) *)

(** [setupTimerWithInterval]: create the timer, add it to the map, start
    it, return it. *)
Definition setupTimerWithInterval (function : QScriptValue) (intervalMS : Z)
    (isSingleShot : bool) (s : ScriptEngine) : ScriptEngine * QTimerPtr :=
  let newTimer := nextTimer s in
  let s1 := set_timers s (<[newTimer := mkQTimer isSingleShot false intervalMS]> (timers s))
                         (Pos.succ newTimer) in
  let s2 := set_timerFunctionMap s1 (<[newTimer := function]> (_timerFunctionMap s1)) in
  (* newTimer->start(intervalMS) *)
  let s3 := set_timers s2 (<[newTimer := mkQTimer isSingleShot true intervalMS]> (timers s2))
                          (nextTimer s2) in
  (s3, newTimer).

(** [setInterval]; [None] is the NULL handle. *)
Definition setInterval (st : Statics) (function : QScriptValue) (intervalMS : Z)
    (s : ScriptEngine) : ScriptEngine * option QTimerPtr :=
  if _stoppingAllScripts st then (s, None) (* bail early *)
  else let '(s', t) := setupTimerWithInterval function intervalMS false s in
       (s', Some t).

(** [setTimeout]. *)
Definition setTimeout (st : Statics) (function : QScriptValue) (timeoutMS : Z)
    (s : ScriptEngine) : ScriptEngine * option QTimerPtr :=
  if _stoppingAllScripts st then (s, None) (* bail early *)
  else let '(s', t) := setupTimerWithInterval function timeoutMS true s in
       (s', Some t).

(** QTimer::stop on the timer at [t]. *)
Definition QTimer_stop (t : QTimerPtr) (s : ScriptEngine) : ScriptEngine :=
  set_timers s (alter (fun q => mkQTimer (isSingleShot q) false (interval q)) t (timers s))
               (nextTimer s).

(** QTimer::stop on every timer of the engine. *)
Definition QTimer_stopAll (s : ScriptEngine) : ScriptEngine :=
  set_timers s ((fun q => mkQTimer (isSingleShot q) false (interval q)) <$> timers s)
               (nextTimer s).

(** [delete timer]. *)
Definition delete_timer (t : QTimerPtr) (s : ScriptEngine) : ScriptEngine :=
  set_timers s (delete t (timers s)) (nextTimer s).

(** [stopTimer]. *)
Definition stopTimer (timer : QTimerPtr) (s : ScriptEngine) : ScriptEngine :=
  if bool_decide (is_Some (_timerFunctionMap s !! timer)) then
    let s1 := QTimer_stop timer s in
    let s2 := set_timerFunctionMap s1 (delete timer (_timerFunctionMap s1)) in
    delete_timer timer s2
  else s.

(** [stop]. *)
Definition stop (s : ScriptEngine) : ScriptEngine :=
  emit (set_isFinished s true) runningStateChanged.

(** [print]. *)
Definition print (message : list Z) (s : ScriptEngine) : ScriptEngine :=
  emit s (printedMessage message).

(** ** Evaluation (lines 414-429) *)

(** [ScriptEngine::evaluate(program, fileName, lineNumber)] in three
    parts: up to the call of the base class QScriptEngine::evaluate (line
    419), that call as the parameter [interp], and what follows it (lines
    421-428). *)
Definition evaluate_enter (s : ScriptEngine) : ScriptEngine :=
  set_evaluatesPending s (int32 (_evaluatesPending s + 1)).

Definition evaluate_leave (result : QScriptValue) (s : ScriptEngine)
    : ScriptEngine :=
  (* if (hasUncaughtException()) qDebug() << ... *)
  let s1 := set_evaluatesPending s (int32 (_evaluatesPending s - 1)) in
  let s2 := emit s1 (evaluationFinished result (hasUncaughtException s1)) in
  clearExceptions s2.

Definition evaluate_with (interp : ScriptEngine -> ScriptEngine * QScriptValue)
    (st : Statics) (s : ScriptEngine) : ScriptEngine * QScriptValue :=
  if _stoppingAllScripts st then (s, InvalidValue) (* bail early *)
  else
    let '(s1, result) := interp (evaluate_enter s) in
    (evaluate_leave result s1, result).

(** How a piece of script ends: a thrown exception fills the engine's
    uncaught-exception slot. *)
Definition finish (result : QScriptValue) (exception : option Z)
    (s : ScriptEngine) : ScriptEngine * QScriptValue :=
  match exception with
  | Some line => (set_uncaughtException s (Some line), result)
  | None => (s, result)
  end.

(** Running script code against the engine: every API call of the script
    is the member function of the source, with the statics as they are
    when the script runs. *)
Fixpoint exec (st : Statics) (p : Script) (s : ScriptEngine)
    : ScriptEngine * QScriptValue :=
  match p with
  | Return result exception => finish result exception s
  | CallSetInterval f ms k => exec st k (fst (setInterval st f ms s))
  | CallSetTimeout f ms k => exec st k (fst (setTimeout st f ms s))
  | CallClearTimer t k => exec st k (stopTimer t s)
  | CallStop k => exec st k (stop s)
  | CallPrint m k => exec st k (print m s)
  | CallEvaluate q k =>
      exec st k (fst (evaluate_with (fun s0 => exec st q (clearExceptions s0)) st s))
  end.

(** QScriptEngine::evaluate: the exception slot is cleared, then the
    program runs. *)
Definition QScriptEngine_evaluate (st : Statics) (program : Script)
    (s : ScriptEngine) : ScriptEngine * QScriptValue :=
  exec st program (clearExceptions s).

(** [ScriptEngine::evaluate]. *)
Definition evaluate (st : Statics) (program : Script) (s : ScriptEngine)
    : ScriptEngine * QScriptValue :=
  evaluate_with (QScriptEngine_evaluate st program) st s.

(** QScriptValue::call on a timer function: a function runs its body, any
    other value is not callable and nothing happens. *)
Definition call (st : Statics) (f : QScriptValue) (s : ScriptEngine)
    : ScriptEngine :=
  match f with
  | FunctionValue body => fst (exec st body s)
  | _ => s
  end.

(** [timerFired], with [sender()] as the argument [callingTimer].  The
    call into the interpreter, [timerFunction.call()], is the argument
    [invoke]: what the engine looks like when the call is made can then be
    stated for every callee. *)
Definition timerFired_with (invoke : QScriptValue -> ScriptEngine -> ScriptEngine)
    (callingTimer : QTimerPtr) (s : ScriptEngine) : ScriptEngine :=
  let timerFunction := default InvalidValue (_timerFunctionMap s !! callingTimer) in
  let s1 :=
    if negb (default false (isActive <$> timers s !! callingTimer)) then
      (* this timer is done, we can kill it *)
      delete_timer callingTimer
        (set_timerFunctionMap s (delete callingTimer (_timerFunctionMap s)))
    else s in
  (* call the associated JS function, if it exists *)
  if isValid timerFunction then
    invoke timerFunction (emit s1 (timerFunctionCall callingTimer))
  else s1.

(** [timerFired] with the interpreter's own call. *)
Definition timerFired (st : Statics) (callingTimer : QTimerPtr)
    (s : ScriptEngine) : ScriptEngine :=
  timerFired_with (call st) callingTimer s.

(** QTimer's side of a timeout: only a live, active timer times out; a
    single-shot timer stops itself, then the timeout signal runs the
    connected slot [timerFired]. *)
Definition QTimer_timeout_with (invoke : QScriptValue -> ScriptEngine -> ScriptEngine)
    (t : QTimerPtr) (s : ScriptEngine) : ScriptEngine :=
  match timers s !! t with
  | Some q =>
      if isActive q then
        timerFired_with invoke t (if isSingleShot q then QTimer_stop t s else s)
      else s
  | None => s
  end.

Definition QTimer_timeout (st : Statics) (t : QTimerPtr) (s : ScriptEngine)
    : ScriptEngine :=
  QTimer_timeout_with (call st) t s.

(** [stopAllTimers] (lines 642-649): the iterator is taken to reach every
    entry the map has when the loop starts. *)
Definition stopAllTimers (s : ScriptEngine) : ScriptEngine :=
  foldr (fun '(t, _) s0 => stopTimer t s0) s (map_to_list (_timerFunctionMap s)).


(** ** The run loop (lines 443-638)

    Two constants come from headers: the per-tick sample budget
    [SCRIPT_AUDIO_BUFFER_SAMPLES] (an [int]) and the packet header written
    by [byteArrayWithPopulatedHeader].  The pacing sleep, the entity packet
    sender and the avatar identity timer only touch collaborators and are
    left out. *)

(** What QCoreApplication::processEvents() can deliver to an engine. *)
Inductive HostEvent : Type :=
  | TimerTimeout (timer : QTimerPtr)
  | StopInvoked
  | NodeKilled (node : QUuid).

(** What one iteration takes from outside the engine. *)
Record Frame : Type := mkFrame {
  delivered : list HostEvent;
  eachNode : list Node
}.

(** How an iteration leaves the body of [while (!_isFinished)]. *)
Inductive Control : Type := Continue | Break.

(** [nodeKilled] (lines 817-819). *)
Definition nodeKilled (node : QUuid) (s : ScriptEngine) : ScriptEngine :=
  set_outgoingScriptAudioSequenceNumbers s
    (delete node (_outgoingScriptAudioSequenceNumbers s)).

(** The two bytes of a 16-bit value as memcpy and writeRawData lay them out
    on the little-endian targets. *)
Definition rawBytes16 (x : Z) : list Z := [x mod 256; (x / 256) mod 256].

(** The 16-bit value held by the two bytes at [offset]. *)
Definition read16 (offset : nat) (data : list Z) : Z :=
  default 0 (data !! offset) + 256 * default 0 (data !! S offset).

(** [memcpy(audioPacket.data() + numPreSequenceNumberBytes, &sequence, 2)] *)
Definition memcpy16 (offset : nat) (x : Z) (data : list Z) : list Z :=
  <[S offset := (x / 256) mod 256]> (<[offset := x mod 256]> data).

(** [nextSoundOutput[i]] for the int16_t pointer into the sound bytes. *)
Definition sampleAt (nextSoundOutput : list Z) (i : nat) : Z :=
  int16 (read16 (2 * i) nextSoundOutput).

(** The body of the lambda given to eachNode (lines 579-587), on one node;
    the packet buffer is shared by all the calls. *)
Definition sendToNode (numPreSequenceNumberBytes : nat) (node : Node)
    (acc : ScriptEngine * list Z) : ScriptEngine * list Z :=
  let '(s, audioPacket) := acc in
  match getType node with
  | AudioMixer =>
      let m := _outgoingScriptAudioSequenceNumbers s in
      (* quint16 sequence = _outgoingScriptAudioSequenceNumbers[uuid]++ *)
      let sequence := default 0 (m !! getUUID node) in
      let s1 := set_outgoingScriptAudioSequenceNumbers s
                  (<[getUUID node := quint16 (sequence + 1)]> m) in
      let audioPacket' := memcpy16 numPreSequenceNumberBytes sequence audioPacket in
      (emit s1 (writeDatagram audioPacket' (getUUID node)), audioPacket')
  | _ => acc
  end.

Section RunLoop.
Variable SCRIPT_AUDIO_BUFFER_SAMPLES : Z.
Variable byteArrayWithPopulatedHeader : PacketType -> list Z.

Definition SCRIPT_AUDIO_BUFFER_BYTES : Z :=
  int32 (size_t (size_t SCRIPT_AUDIO_BUFFER_SAMPLES * 2)).

(** Lines 510-537: the part of the audio block that pulls from the queued
    sound.  Returns the engine, [silentFrame], [numAvailableSamples] and
    [nextSoundOutput]. *)
Definition pullAvatarSound (soundByteArray : list Z) (s : ScriptEngine)
    : ScriptEngine * bool * Z * list Z :=
  let size := Z.of_nat (length soundByteArray) in
  let nextSoundOutput := drop (Z.to_nat (_numAvatarSoundSentBytes s)) soundByteArray in
  let numAvailableBytes :=
    if bool_decide (SCRIPT_AUDIO_BUFFER_BYTES < int32 (size - _numAvatarSoundSentBytes s))
    then SCRIPT_AUDIO_BUFFER_BYTES
    else int32 (size - _numAvatarSoundSentBytes s) in
  let numAvailableSamples := int16 (size_t numAvailableBytes / 2) in
  (* check if all of the samples to be sent are silence *)
  let silentFrame :=
    forallb (fun i => bool_decide (sampleAt nextSoundOutput i = 0))
            (seq 0 (Z.to_nat numAvailableSamples)) in
  let sent := int32 (_numAvatarSoundSentBytes s + numAvailableBytes) in
  let s1 :=
    if bool_decide (sent = size) then
      (* we're done with this sound object *)
      set_avatarSound s None 0
    else set_avatarSound s (_avatarSound s) sent in
  (s1, silentFrame, numAvailableSamples, nextSoundOutput).

(** Lines 503-589: the audio block.  [Break] is the [break] of line 552. *)
Definition audioFrame (avatarData : AvatarData) (nodes : list Node)
    (s : ScriptEngine) : Control * ScriptEngine :=
  if _isListeningToAudioStream s || bool_decide (is_Some (_avatarSound s)) then
    let '(s1, silentFrame, numAvailableSamples, nextSoundOutput) :=
      match _avatarSound s with
      | Some soundByteArray =>
          let '(s1, silent, n, out) := pullAvatarSound soundByteArray s in
          (s1, silent, n, Some out)
      | None => (s, true, int16 SCRIPT_AUDIO_BUFFER_SAMPLES, None)
      end in
    let audioPacket :=
      byteArrayWithPopulatedHeader
        (if silentFrame then PacketTypeSilentAudioFrame
         else PacketTypeMicrophoneAudioNoEcho) in
    (* pack a placeholder value for sequence number for now *)
    let numPreSequenceNumberBytes := length audioPacket in
    let audioPacket := audioPacket ++ [0; 0] in
    let body : option (list Z) :=
      if silentFrame then
        if negb (_isListeningToAudioStream s1) then None (* break *)
        else Some (rawBytes16 SCRIPT_AUDIO_BUFFER_SAMPLES
                    ++ getPosition avatarData ++ getHeadOrientation avatarData)
      else
        match nextSoundOutput with
        | Some out =>
            Some ([0] ++ getPosition avatarData ++ getHeadOrientation avatarData
                  ++ take (Z.to_nat (int32 (size_t (size_t numAvailableSamples * 2)))) out)
        | None => Some []
        end in
    match body with
    | None => (Break, s1)
    | Some bytes =>
        (* write audio packet to AudioMixer nodes *)
        (Continue,
         fst (foldl (fun acc node => sendToNode numPreSequenceNumberBytes node acc)
                    (s1, audioPacket ++ bytes) nodes))
    end
  else (Continue, s).

(** Lines 492-590. *)
Definition avatarFrame (nodes : list Node) (s : ScriptEngine)
    : Control * ScriptEngine :=
  match _avatarData s with
  | Some avatarData =>
      if negb (_isFinished s) && _isAvatar s then
        let avatarPacket :=
          byteArrayWithPopulatedHeader PacketTypeAvatarData ++ toByteArray avatarData in
        audioFrame avatarData nodes (emit s (broadcastToNodes avatarPacket AvatarMixer))
      else (Continue, s)
  | None => (Continue, s)
  end.

(** One event handed over by processEvents. *)
Definition deliver (st : Statics) (e : HostEvent) (s : ScriptEngine)
    : ScriptEngine :=
  match e with
  | TimerTimeout t => QTimer_timeout st t s
  | StopInvoked => stop s
  | NodeKilled n => nodeKilled n s
  end.

Definition processEvents (st : Statics) (events : list HostEvent)
    (s : ScriptEngine) : ScriptEngine :=
  foldl (fun s0 e => deliver st e s0) s events.

(** The body of [while (!_isFinished)] (lines 467-606). *)
Definition iteration (st : Statics) (f : Frame) (s : ScriptEngine)
    : Control * ScriptEngine :=
  if _isFinished s then (Break, s)
  else
    let s1 := processEvents st (delivered f) s in
    if _isFinished s1 then (Break, s1)
    else
      match avatarFrame (eachNode f) s1 with
      | (Break, s2) => (Break, s2)
      | (Continue, s2) =>
          let s3 :=
            if hasUncaughtException s2 then
              clearExceptions
                (emit s2 (errorMessage (default 0 (uncaughtException s2))))
            else s2 in
          let s4 := if negb (_isFinished s3) then emit s3 update else s3 in
          (Continue, s4)
      end.

(** [while (!_isFinished) { ... }]: one frame per iteration; [None] when
    the frames run out with the loop still going. *)
Fixpoint runLoop (st : Statics) (frames : list Frame) (s : ScriptEngine)
    : option ScriptEngine :=
  if _isFinished s then Some s
  else
    match frames with
    | [] => None
    | f :: rest =>
        match iteration st f s with
        | (Break, s') => Some s'
        | (Continue, s') => runLoop st rest s'
        end
    end.

(** [init] (lines 301-359), as far as the engine's own members go. *)
Definition init (s : ScriptEngine) : ScriptEngine :=
  if _isInitialized s then s else set_isInitialized s true.

(** [run] up to the loop (lines 447-454). *)
Definition run_enter (st : Statics) (s : ScriptEngine) : ScriptEngine :=
  let s1 := if negb (_isInitialized s) then init s else s in
  let s2 := set_isFinished (set_isRunning s1 true) false in
  let s3 := emit s2 runningStateChanged in
  fst (evaluate st (_scriptContents s3) s3).

(** [run] after the loop (lines 609-637), as far as the engine's own
    members and signals go; the last line writes the static
    [_doneRunningThisScript].  The avatar's identity and billboard timers
    belong to the avatar code, and functions a script has connected to
    scriptEnding are not followed. *)
Definition run_exit (st : Statics) (s : ScriptEngine) : Statics * ScriptEngine :=
  let s1 := stopAllTimers s in
  (* scriptEnding is connected to QTimer::stop of every timer (line 680) *)
  let s2 := QTimer_stopAll (emit s1 scriptEnding) in
  let s3 := emit s2 finished in
  let s4 := set_isRunning s3 false in
  let s5 := emit s4 runningStateChanged in
  let s6 := emit s5 doneRunning in
  (mkStatics (_stoppingAllScripts st) true, s6).

(** [run]. *)
Definition run (st : Statics) (frames : list Frame) (s : ScriptEngine)
    : option (Statics * ScriptEngine) :=
  match runLoop st frames (run_enter st s) with
  | Some s' => Some (run_exit st s')
  | None => None
  end.

End RunLoop.

(** ** The registry and stopAllScripts (lines 98-189)

    Engines run on their own threads while stopAllScripts runs on the
    application thread.  The heap of engines and the class statics form a
    [World]; what the other threads do while stopAllScripts is blocked in
    one of its two waits is given by a schedule of [ThreadStep]s, one step
    per pass through the waiting loop. *)

Abbreviation EnginePtr := positive.

Record World : Type := mkWorld {
  statics : Statics;
  (** QSet<ScriptEngine*>; the list order is the iteration order *)
  _allKnownScriptEngines : list positive;
  (** the engines by address *)
  engines : gmap positive ScriptEngine;
  (** the engines whose signals are connected to the application object *)
  connectedToApplication : gset positive
}.

Definition set_statics (st : Statics) (w : World) : World :=
  mkWorld st (_allKnownScriptEngines w) (engines w) (connectedToApplication w).

Definition set_allKnownScriptEngines (l : list positive) (w : World) : World :=
  mkWorld (statics w) l (engines w) (connectedToApplication w).

Definition set_engine (e : EnginePtr) (s : ScriptEngine) (w : World) : World :=
  mkWorld (statics w) (_allKnownScriptEngines w) (<[e := s]> (engines w))
          (connectedToApplication w).

Definition set_connectedToApplication (c : gset positive) (w : World) : World :=
  mkWorld (statics w) (_allKnownScriptEngines w) (engines w) c.

Definition set_stoppingAllScripts (b : bool) (w : World) : World :=
  set_statics (mkStatics b (_doneRunningThisScript (statics w))) w.

Definition set_doneRunningThisScript (b : bool) (w : World) : World :=
  set_statics (mkStatics (_stoppingAllScripts (statics w)) b) w.

(** [scriptEngine->isRunning()] through a registry pointer. *)
Definition isRunning (e : EnginePtr) (w : World) : bool :=
  default false (_isRunning <$> engines w !! e).

(** What a thread other than the application thread can do between two
    passes of a waiting loop.  A step whose label does not fit the state of
    its engine is no step. *)
Inductive ThreadStep : Type :=
  (** nothing that concerns the engines *)
  | Idle
  (** an evaluate call in flight on the engine comes back from the
      interpreter with [result] and runs lines 421-428 *)
  | EvaluateReturns (engine : EnginePtr) (result : QScriptValue)
  (** the run loop of the engine has seen [_isFinished] and runs lines
      609-637 *)
  | RunReturns (engine : EnginePtr)
  (** the thread of the engine enters run() and runs lines 447-454 *)
  | RunEnters (engine : EnginePtr)
  (** the script of the engine calls Script.stop() (lines 651-654) *)
  | StopCalled (engine : EnginePtr)
  (** the run loop of the engine goes once through its body (lines
      467-606) on what [frame] brings and stays in the loop; the two header
      constants of the run loop come with the step *)
  | RunContinues (engine : EnginePtr) (SCRIPT_AUDIO_BUFFER_SAMPLES : Z)
      (byteArrayWithPopulatedHeader : PacketType -> list Z) (frame : Frame)
  (** the run loop of the engine goes through its body and leaves the loop
      from inside it, through one of the breaks of lines 472, 478 and 552,
      then runs lines 609-637 *)
  | RunBreaks (engine : EnginePtr) (SCRIPT_AUDIO_BUFFER_SAMPLES : Z)
      (byteArrayWithPopulatedHeader : PacketType -> list Z) (frame : Frame).

Definition threadStep (step : ThreadStep) (w : World) : World :=
  match step with
  | Idle => w
  | EvaluateReturns e result =>
      match engines w !! e with
      | Some s =>
          if evaluatePending s then set_engine e (evaluate_leave result s) w
          else w
      | None => w
      end
  | RunReturns e =>
      match engines w !! e with
      | Some s =>
          if _isRunning s && _isFinished s then
            let '(st, s') := run_exit (statics w) s in
            set_statics st (set_engine e s' w)
          else w
      | None => w
      end
  | RunEnters e =>
      match engines w !! e with
      | Some s =>
          if _isRunning s then w
          else set_engine e (run_enter (statics w) s) w
      | None => w
      end
  | StopCalled e =>
      match engines w !! e with
      | Some s => set_engine e (stop s) w
      | None => w
      end
  | RunContinues e samples header f =>
      match engines w !! e with
      | Some s =>
          if _isRunning s then
            match iteration samples header (statics w) f s with
            | (Continue, s') => set_engine e s' w
            | (Break, _) => w
            end
          else w
      | None => w
      end
  | RunBreaks e samples header f =>
      match engines w !! e with
      | Some s =>
          if _isRunning s then
            match iteration samples header (statics w) f s with
            | (Break, s') =>
                let '(st, s'') := run_exit (statics w) s' in
                set_statics st (set_engine e s'' w)
            | (Continue, _) => w
            end
          else w
      | None => w
      end
  end.

(** The number of evaluationFinished signals in a trace. *)
Definition isEvaluationFinished (ev : Event) : bool :=
  match ev with evaluationFinished _ _ => true | _ => false end.

Definition countEvaluationFinished (tr : list Event) : nat :=
  length (List.filter isEvaluationFinished tr).

(** Whether the engine emitted evaluationFinished between two worlds. *)
Definition emittedEvaluationFinished (e : EnginePtr) (w w' : World) : bool :=
  bool_decide (countEvaluationFinished (default [] (trace <$> engines w !! e))
               < countEvaluationFinished (default [] (trace <$> engines w' !! e)))%nat.

(** Lines 136-146: [while (evaluatePending()) { loop.exec(); }], where the
    event loop quits on the engine's evaluationFinished.  [inLoop] tells
    whether control is inside loop.exec(). *)
Fixpoint waitForEvaluations (inLoop : bool) (e : EnginePtr)
    (sched : list ThreadStep) (w : World) : option (list ThreadStep * World) :=
  if negb inLoop && negb (default false (evaluatePending <$> engines w !! e))
  then Some (sched, w)
  else
    match sched with
    | [] => None
    | step :: rest =>
        let w' := threadStep step w in
        waitForEvaluations (negb (emittedEvaluationFinished e w w')) e rest w'
    end.

(** Lines 183-187: [while (!_doneRunningThisScript) processEvents();] *)
Fixpoint pollDoneRunning (sched : list ThreadStep) (w : World)
    : option (list ThreadStep * World) :=
  if _doneRunningThisScript (statics w) then Some (sched, w)
  else
    match sched with
    | [] => None
    | step :: rest => pollDoneRunning rest (threadStep step w)
    end.

(** [waitTillDoneRunning] (lines 171-189). *)
Definition waitTillDoneRunning (e : EnginePtr) (sched : list ThreadStep)
    (w : World) : option (list ThreadStep * World) :=
  if isRunning e w then
    pollDoneRunning sched (set_doneRunningThisScript false w)
  else Some (sched, w).

(** The body of the iteration over the registry (lines 125-164) for the
    engine at [e]. *)
Definition visit (e : EnginePtr) (sched : list ThreadStep) (w : World)
    : option (list ThreadStep * World) :=
  if isRunning e w then
    '(sched1, w1) ← waitForEvaluations false e sched w;
    (* scriptEngine->disconnect(application) *)
    let w2 := set_connectedToApplication (connectedToApplication w1 ∖ {[e]}) w1 in
    (* scriptEngine->stop() *)
    let w3 := match engines w2 !! e with
              | Some s => set_engine e (stop s) w2
              | None => w2
              end in
    '(sched2, w4) ← waitTillDoneRunning e sched1 w3;
    (* i.remove() *)
    Some (sched2,
          set_allKnownScriptEngines
            (filter (fun e' => e' ≠ e) (_allKnownScriptEngines w4)) w4)
  else Some (sched, w).

Fixpoint sweep (l : list EnginePtr) (sched : list ThreadStep) (w : World)
    : option (list ThreadStep * World) :=
  match l with
  | [] => Some (sched, w)
  | e :: rest => '(sched', w') ← visit e sched w; sweep rest sched' w'
  end.

(** [stopAllScripts]; [None] when the schedule ends with stopAllScripts
    still blocked in a wait. *)
Definition stopAllScripts (sched : list ThreadStep) (w : World)
    : option (list ThreadStep * World) :=
  let w1 := set_stoppingAllScripts true w in
  '(sched', w2) ← sweep (_allKnownScriptEngines w1) sched w1;
  Some (sched', set_stoppingAllScripts false w2).

(** The constructor's registration (lines 98-100). *)
Definition register (e : EnginePtr) (s : ScriptEngine) (w : World) : World :=
  set_allKnownScriptEngines
    (if bool_decide (e ∈ _allKnownScriptEngines w) then _allKnownScriptEngines w
     else _allKnownScriptEngines w ++ [e])
    (set_engine e s w).

(** ** Measures used in the statements *)

(** How deep the calls of evaluate made by a script nest. *)
Fixpoint nesting (p : Script) : Z :=
  match p with
  | Return _ _ => 0
  | CallSetInterval _ _ k => nesting k
  | CallSetTimeout _ _ k => nesting k
  | CallClearTimer _ k => nesting k
  | CallStop k => nesting k
  | CallPrint _ k => nesting k
  | CallEvaluate q k => Z.max (1 + nesting q) (nesting k)
  end.

(** Whether an event is a call of the function of timer [t]. *)
Definition isCallOf (t : QTimerPtr) (ev : Event) : bool :=
  match ev with
  | timerFunctionCall t' => bool_decide (t' = t)
  | _ => false
  end.

(** How often the function of timer [t] has been called so far. *)
Definition calls (t : QTimerPtr) (s : ScriptEngine) : nat :=
  length (List.filter (isCallOf t) (trace s)).

(** ** Histories of one engine

    What can happen to an engine between its construction and the end of
    its run, as far as its timers go: a program is evaluated, the event
    loop delivers an event, the run loop ends and stops all timers.  Each
    step sees the statics as they are at that time. *)
Inductive EngineOp : Type :=
  | OpEvaluate (program : Script)
  | OpDeliver (e : HostEvent)
  | OpStopAllTimers.

Definition engineOp (s : ScriptEngine) (op : Statics * EngineOp) : ScriptEngine :=
  match op with
  | (st, OpEvaluate program) => fst (evaluate st program s)
  | (st, OpDeliver e) =>
      match e with
      | TimerTimeout t => QTimer_timeout st t s
      | StopInvoked => stop s
      | NodeKilled n => nodeKilled n s
      end
  | (_, OpStopAllTimers) => stopAllTimers s
  end.

Definition engineOps (ops : list (Statics * EngineOp)) (s : ScriptEngine)
    : ScriptEngine :=
  foldl engineOp s ops.

(** The invariant kept for one timer pointer [t] along the history of an
    engine: live timers lie below the allocation counter; while [t] is
    live and single-shot its function has not been called; a pointer not
    yet handed out has no calls.  With [known] set, [t] is moreover known
    to have been allocated as a single-shot timer, and once it is gone it
    has been called at most once. *)
Definition timerInv (known : bool) (t : QTimerPtr) (s : ScriptEngine) : Prop :=
  (forall t' q, timers s !! t' = Some q -> (t' < nextTimer s)%positive) /\
  match timers s !! t with
  | Some q => (isSingleShot q = true -> calls t s = 0%nat) /\
              (known = true -> isSingleShot q = true)
  | None => ((nextTimer s <= t)%positive -> calls t s = 0%nat /\ known = false) /\
            (known = true -> (calls t s <= 1)%nat)
  end.

(** What running a piece of script does to [_evaluatesPending]: the value
    is restored, and every value assigned on the way is at least the value
    at the start. *)
Definition restoresPending (s s' : ScriptEngine) : Prop :=
  _evaluatesPending s' = _evaluatesPending s /\
  exists new, pendingWrites s' = pendingWrites s ++ new /\
              Forall (fun v => _evaluatesPending s <= v) new.

(** The trace only grows. *)
Definition extendsTrace (s s' : ScriptEngine) : Prop :=
  exists tr, trace s' = trace s ++ tr.

(** ** Histories of the sequence tracker

    What touches [_outgoingScriptAudioSequenceNumbers]: the run loop hands
    the current audio packet to a node (the lambda of lines 578-588), or a
    node is reported killed. *)
Inductive TrackerOp : Type :=
  | AudioSend (audioPacket : list Z) (node : Node)
  | Disconnect (node : QUuid).

Definition trackerOp (numPreSequenceNumberBytes : nat) (s : ScriptEngine)
    (op : TrackerOp) : ScriptEngine :=
  match op with
  | AudioSend audioPacket node =>
      fst (sendToNode numPreSequenceNumberBytes node (s, audioPacket))
  | Disconnect n => nodeKilled n s
  end.

Definition trackerOps (numPreSequenceNumberBytes : nat) (ops : list TrackerOp)
    (s : ScriptEngine) : ScriptEngine :=
  foldl (trackerOp numPreSequenceNumberBytes) s ops.

(** The sequence numbers carried, at [offset], by the datagrams of a trace
    that went to [peer], oldest first. *)
Definition sequencesTo (offset : nat) (peer : QUuid) (tr : list Event) : list Z :=
  omap (fun ev => match ev with
                  | writeDatagram packet n =>
                      if decide (n = peer) then Some (read16 offset packet) else None
                  | _ => None
                  end) tr.

(** The sequence numbers the specification asks for: a counter per peer
    that starts at 0, goes up by one modulo 2^16 with every packet to the
    peer, and starts over after the peer has disconnected. *)
Fixpoint expectedSequences (peer : QUuid) (counter : Z) (ops : list TrackerOp)
    : list Z :=
  match ops with
  | [] => []
  | AudioSend _ node :: rest =>
      match getType node with
      | AudioMixer =>
          if decide (getUUID node = peer)
          then counter :: expectedSequences peer ((counter + 1) mod 2 ^ 16) rest
          else expectedSequences peer counter rest
      | _ => expectedSequences peer counter rest
      end
  | Disconnect n :: rest =>
      if decide (n = peer) then expectedSequences peer 0 rest
      else expectedSequences peer counter rest
  end.

(** Every packet of a history is long enough to hold the two sequence
    bytes at [offset]. *)
Definition packetsHold (offset : nat) (ops : list TrackerOp) : Prop :=
  Forall (fun op => match op with
                    | AudioSend audioPacket _ => (offset + 2 <= length audioPacket)%nat
                    | Disconnect _ => True
                    end) ops.

(** ** Schedules under which stopAllScripts keeps its promise *)


(** The engine a step is about. *)
Definition engineOf (step : ThreadStep) : option EnginePtr :=
  match step with
  | Idle => None
  | EvaluateReturns e _ | RunReturns e | RunEnters e | StopCalled e
  | RunContinues e _ _ _ | RunBreaks e _ _ _ => Some e
  end.



(** What a wait of stopAllScripts leaves of an engine [e] it is not
    concerned with: its place in the registry and its connections to the
    application, and, when no step of the schedule is about [e], its state;
    the rest of the schedule is then again not about [e]. *)
Definition leavesAlone (e : EnginePtr) (sched : list ThreadStep) (w : World)
    (sched' : list ThreadStep) (w' : World) : Prop :=
  (e ∈ _allKnownScriptEngines w' <-> e ∈ _allKnownScriptEngines w) /\
  (e ∈ connectedToApplication w' <-> e ∈ connectedToApplication w) /\
  (Forall (fun step => engineOf step <> Some e) sched ->
   engines w' !! e = engines w !! e /\
   Forall (fun step => engineOf step <> Some e) sched').

(** * Further members and what they keep *)

(** ** Timers: the map and the QTimer children *)

(** Every key of [_timerFunctionMap] is a live QTimer of the engine and
    every live QTimer has an entry; live timers lie below the allocation
    counter. *)
Definition timersTracked (s : ScriptEngine) : Prop :=
  (forall t, is_Some (_timerFunctionMap s !! t) <-> is_Some (timers s !! t)) /\
  (forall t q, timers s !! t = Some q -> (t < nextTimer s)%positive).

(** ** What script code can do to the engine *)

(** The events that come from running script code or from a timer firing:
    print, stop, the end of an evaluate call, the call of a timer
    function. *)
Definition fromScript (ev : Event) : bool :=
  match ev with
  | printedMessage _ | runningStateChanged | evaluationFinished _ _
  | timerFunctionCall _ => true
  | _ => false
  end.

(** A packet handed to the node list. *)
Definition isPacket (ev : Event) : bool :=
  match ev with
  | broadcastToNodes _ _ | writeDatagram _ _ => true
  | _ => false
  end.

(** What holds between the engine before and after script code has run on
    it or an event was delivered to it: the trace has grown by events from
    script only, the avatar and lifecycle members other than [_isFinished]
    are as they were, and [_isFinished] has not been cleared. *)
Definition scriptStep (s s' : ScriptEngine) : Prop :=
  (exists tr, trace s' = trace s ++ tr /\ Forall (fun ev => fromScript ev = true) tr) /\
  _isAvatar s' = _isAvatar s /\
  _avatarData s' = _avatarData s /\
  _avatarSound s' = _avatarSound s /\
  _numAvatarSoundSentBytes s' = _numAvatarSoundSentBytes s /\
  _isListeningToAudioStream s' = _isListeningToAudioStream s /\
  _isRunning s' = _isRunning s /\
  _isInitialized s' = _isInitialized s /\
  _scriptContents s' = _scriptContents s /\
  (_isFinished s = true -> _isFinished s' = true).

(** [evaluate()] without arguments (lines 393-412). *)
Definition evaluate_contents (st : Statics) (s : ScriptEngine) : ScriptEngine :=
  if _stoppingAllScripts st then s (* bail early *)
  else
    let s1 := if negb (_isInitialized s) then init s else s in
    let '(s2, result) := evaluate st (_scriptContents s1) s1 in
    if hasUncaughtException s2 then
      clearExceptions (emit s2 (errorMessage (default 0 (uncaughtException s2))))
    else s2.

(** ** Audio packets *)

Definition isAudioMixer (n : Node) : bool :=
  match getType n with AudioMixer => true | _ => false end.

(** The datagram that carries [body] behind the header [h] and the
    sequence number [sequence], for the node [u]. *)
Definition audioDatagram (h body : list Z) (to : QUuid * Z) : Event :=
  writeDatagram (h ++ rawBytes16 (snd to) ++ body) (fst to).

(** The avatar parts (lines 492-590) of consecutive iterations of the run
    loop, one node list per iteration, up to the first that leaves the loop
    through the break of line 552. *)
Fixpoint avatarFrames (samples : Z) (header : PacketType -> list Z)
    (frames : list (list Node)) (s : ScriptEngine) : Control * ScriptEngine :=
  match frames with
  | [] => (Continue, s)
  | nodes :: rest =>
      match avatarFrame samples header nodes s with
      | (Break, s') => (Break, s')
      | (Continue, s') => avatarFrames samples header rest s'
      end
  end.

(** ** The destructor (lines 103-112) *)

(** [~ScriptEngine]: outside a stop-all the engine takes itself out of the
    registry; in any case the object and its connections are gone. *)
Definition destroy (e : EnginePtr) (w : World) : World :=
  let w1 :=
    if negb (_stoppingAllScripts (statics w)) then
      set_allKnownScriptEngines
        (filter (fun e' => e' ≠ e) (_allKnownScriptEngines w)) w
    else w in
  mkWorld (statics w1) (_allKnownScriptEngines w1) (delete e (engines w1))
          (connectedToApplication w1 ∖ {[e]}).

(** ** Strings: getFilename and debugPrint

    A QString is the list of its UTF-16 code units. *)

(** [QString::split(sep)] for a separator of one character, empty parts
    kept. *)
Fixpoint split (sep : Z) (s : list Z) : list (list Z) :=
  match s with
  | [] => [[]]
  | c :: rest =>
      if bool_decide (c = sep) then [] :: split sep rest
      else match split sep rest with
           | part :: parts => (c :: part) :: parts
           | [] => [[c]]
           end
  end.

(** [getFilename] (lines 191-198); 47 is the slash. *)
Definition getFilename (_fileNameString : list Z) : list Z :=
  let fileNameParts := split 47 _fileNameString in
  match fileNameParts with
  | [] => []
  | _ => List.last fileNameParts []
  end.

(** [QString::replace(before, after)] for a [before] of one character. *)
Definition replace (before : Z) (after : list Z) (s : list Z) : list Z :=
  flat_map (fun c => if bool_decide (c = before) then after else [c]) s.

(** The escaping chain of [debugPrint] (lines 49-53): backslash (92), line
    feed (10), carriage return (13), single quote (39); 110 and 114 are the
    letters n and r. *)
Definition escapeMessage (message : list Z) : list Z :=
  replace 39 [92; 39]
    (replace 13 [92; 114]
       (replace 10 [92; 110]
          (replace 92 [92; 92] message))).

(** The program text [debugPrint] hands to the interpreter (line 54):
    Script.print(' ... '). *)
Definition debugPrintProgram (message : list Z) : list Z :=
  [83; 99; 114; 105; 112; 116; 46; 112; 114; 105; 110; 116; 40; 39]
  ++ escapeMessage message ++ [39; 41].

(** The line terminators of the script language: line feed, carriage
    return, and the line and paragraph separators U+2028 and U+2029. *)
Definition isLineTerminator (c : Z) : bool :=
  bool_decide (c = 10) || bool_decide (c = 13)
  || bool_decide (c = 8232) || bool_decide (c = 8233).

(** How the script language reads the body of a single-quoted string
    literal, for the escapes [debugPrint] writes: the literal ends at the
    first quote that is not escaped, a backslash takes the next character
    (n and r standing for line feed and carriage return), and a bare line
    terminator is an error.  Returns the string denoted and the text after
    the closing quote. *)
Fixpoint readLiteral (s : list Z) : option (list Z * list Z) :=
  match s with
  | [] => None
  | c :: rest =>
      if bool_decide (c = 39) then Some ([], rest)
      else if isLineTerminator c then None
      else if bool_decide (c = 92) then
        match rest with
        | [] => None
        | d :: rest' =>
            let ch := if bool_decide (d = 110) then 10
                      else if bool_decide (d = 114) then 13 else d in
            match readLiteral rest' with
            | Some (str, after) => Some (ch :: str, after)
            | None => None
            end
        end
      else
        match readLiteral rest with
        | Some (str, after) => Some (c :: str, after)
        | None => None
        end
  end.

(** ** include (lines 747-789) *)

Abbreviation QUrl := N.

(** The lambda [evaluateScripts] that include() connects to the loader's
    finished signal: [data] holds the text of the urls that could be
    loaded. *)
Definition evaluateScripts (st : Statics) (urls : list QUrl)
    (data : gmap N Script) (callback : QScriptValue) (s : ScriptEngine)
    : ScriptEngine :=
  let s1 :=
    foldl (fun s0 url =>
             match data !! url with
             | None => s0 (* Error loading file *)
             | Some contents => fst (evaluate st contents s0)
             end) s urls in
  match callback with
  | FunctionValue _ => call st callback s1
  | _ => s1
  end.

(** [include] for a loader that has finished: [st] are the statics at the
    call, [st'] those when the loader reports. *)
Definition include (st st' : Statics) (urls : list QUrl) (data : gmap N Script)
    (callback : QScriptValue) (s : ScriptEngine) : ScriptEngine :=
  if _stoppingAllScripts st then s (* bail early *)
  else evaluateScripts st' urls data callback s.
(** * Properties *)

(** ** Machine integers in range *)

Lemma int32_id x : - 2 ^ 31 <= x < 2 ^ 31 -> int32 x = x.
Proof. intros H. unfold int32. rewrite Z.mod_small; lia. Qed.

Lemma int16_id x : - 2 ^ 15 <= x < 2 ^ 15 -> int16 x = x.
Proof. intros H. unfold int16. rewrite Z.mod_small; lia. Qed.

Lemma size_t_id x : 0 <= x < 2 ^ 64 -> size_t x = x.
Proof. intros H. unfold size_t. rewrite Z.mod_small; lia. Qed.

Lemma quint16_range x : 0 <= quint16 x < 2 ^ 16.
Proof. unfold quint16. apply Z.mod_pos_bound. lia. Qed.

(** ** Frame lemmas: what each member function leaves alone *)

Lemma setupTimer_frame f ms b s :
  let s' := fst (setupTimerWithInterval f ms b s) in
  _evaluatesPending s' = _evaluatesPending s /\
  pendingWrites s' = pendingWrites s /\
  trace s' = trace s.
Proof. destruct s; simpl; auto. Qed.

Lemma setInterval_frame st f ms s :
  let s' := fst (setInterval st f ms s) in
  _evaluatesPending s' = _evaluatesPending s /\
  pendingWrites s' = pendingWrites s /\
  trace s' = trace s.
Proof.
  unfold setInterval. destruct (_stoppingAllScripts st); [auto|].
  apply setupTimer_frame.
Qed.

Lemma setTimeout_frame st f ms s :
  let s' := fst (setTimeout st f ms s) in
  _evaluatesPending s' = _evaluatesPending s /\
  pendingWrites s' = pendingWrites s /\
  trace s' = trace s.
Proof.
  unfold setTimeout. destruct (_stoppingAllScripts st); [auto|].
  apply setupTimer_frame.
Qed.

Lemma stopTimer_frame t s :
  _evaluatesPending (stopTimer t s) = _evaluatesPending s /\
  pendingWrites (stopTimer t s) = pendingWrites s /\
  trace (stopTimer t s) = trace s.
Proof. unfold stopTimer. case_bool_decide; destruct s; simpl; auto. Qed.

Lemma finish_frame v e s :
  let s' := fst (finish v e s) in
  _evaluatesPending s' = _evaluatesPending s /\
  pendingWrites s' = pendingWrites s /\
  trace s' = trace s.
Proof. destruct e, s; simpl; auto. Qed.

(** ** Timers requested during shutdown *)

(** C7: while [_stoppingAllScripts] is set, setInterval and setTimeout
    return the NULL handle and hand back the engine exactly as it was, so
    the timer map is unchanged and no QTimer is created or started. *)
Theorem timers_rejected_while_stopping st function ms s :
  _stoppingAllScripts st = true ->
  setInterval st function ms s = (s, None) /\
  setTimeout st function ms s = (s, None).
Proof. intros H. unfold setInterval, setTimeout. rewrite H. auto. Qed.

Lemma timers_rejected_while_stopping_witness :
  let st := mkStatics true false in
  let s := newScriptEngine (Return InvalidValue None) in
  setInterval st (PlainValue 7) 10 s = (s, None) /\
  setTimeout st (PlainValue 7) 10 s = (s, None).
Proof.
  intros st s.
  apply (timers_rejected_while_stopping st (PlainValue 7) 10 s).
  reflexivity.
Defined.

(** ** Clearing a timer that is not in the map *)

Lemma stopTimer_absent timer s :
  _timerFunctionMap s !! timer = None -> stopTimer timer s = s.
Proof.
  intros H. unfold stopTimer. rewrite H.
  rewrite bool_decide_eq_false_2; [reflexivity|]. intros [x Hx]. discriminate.
Qed.

Lemma stopTimer_removes timer s :
  _timerFunctionMap (stopTimer timer s) !! timer = None.
Proof.
  unfold stopTimer. case_bool_decide as H.
  - destruct s; simpl. apply lookup_delete_eq.
  - destruct (_timerFunctionMap s !! timer) eqn:E; [|reflexivity].
    exfalso. apply H. eauto.
Qed.

(** C10: stopTimer on a handle that is not a key of [_timerFunctionMap]
    returns the engine unchanged (map, QTimer children and every other
    member); hence a second stopTimer on the same handle changes nothing. *)
Theorem stopTimer_unknown_handle_noop timer s :
  (_timerFunctionMap s !! timer = None -> stopTimer timer s = s) /\
  stopTimer timer (stopTimer timer s) = stopTimer timer s.
Proof.
  split; [apply stopTimer_absent|].
  apply stopTimer_absent, stopTimer_removes.
Qed.

Lemma stopTimer_unknown_handle_noop_witness :
  let s := newScriptEngine (Return InvalidValue None) in
  stopTimer 3 s = s /\ stopTimer 3 (stopTimer 3 s) = stopTimer 3 s.
Proof.
  intros s. destruct (stopTimer_unknown_handle_noop 3 s) as [H1 H2].
  split; [apply H1; reflexivity | exact H2].
Defined.

(** ** The pending-evaluations counter *)

Lemma nesting_nonneg p : 0 <= nesting p.
Proof. induction p; simpl; lia. Qed.

Lemma restoresPending_frame s s' :
  _evaluatesPending s' = _evaluatesPending s ->
  pendingWrites s' = pendingWrites s ->
  restoresPending s s'.
Proof. intros H1 H2. split; [done|]. exists []. rewrite app_nil_r. auto. Qed.

Lemma restoresPending_trans s1 s2 s3 :
  restoresPending s1 s2 -> restoresPending s2 s3 -> restoresPending s1 s3.
Proof.
  intros [E1 (n1 & W1 & F1)] [E2 (n2 & W2 & F2)]. split; [congruence|].
  exists (n1 ++ n2). split.
  - rewrite W2, W1, app_assoc. reflexivity.
  - apply Forall_app. split; [done|]. rewrite <- E1. done.
Qed.

Lemma evaluate_with_restoresPending interp st s :
  0 <= _evaluatesPending s < INT_MAX ->
  (forall s0, _evaluatesPending s0 = _evaluatesPending s + 1 ->
              restoresPending s0 (fst (interp s0))) ->
  restoresPending s (fst (evaluate_with interp st s)).
Proof.
  intros Hc Hi. unfold evaluate_with.
  destruct (_stoppingAllScripts st).
  { apply restoresPending_frame; reflexivity. }
  assert (He : _evaluatesPending (evaluate_enter s) = _evaluatesPending s + 1).
  { unfold evaluate_enter; simpl. apply int32_id. unfold INT_MAX in Hc. lia. }
  specialize (Hi _ He).
  destruct (interp (evaluate_enter s)) as [s1 r]. cbn [fst] in *.
  destruct Hi as [E1 (n1 & W1 & F1)]. rewrite He in E1, F1.
  assert (Hd : int32 (_evaluatesPending s1 - 1) = _evaluatesPending s).
  { rewrite E1. replace (_evaluatesPending s + 1 - 1) with (_evaluatesPending s) by lia.
    apply int32_id. unfold INT_MAX in Hc. lia. }
  assert (Hu : int32 (_evaluatesPending s + 1) = _evaluatesPending s + 1).
  { apply int32_id. unfold INT_MAX in Hc. lia. }
  split; [exact Hd|].
  exists ([_evaluatesPending s + 1] ++ n1 ++ [_evaluatesPending s]). split.
  - unfold evaluate_leave, evaluate_enter in *. simpl in *. rewrite W1, Hd, Hu.
    rewrite <- !app_assoc. reflexivity.
  - apply Forall_app. split; [constructor; [lia|constructor]|].
    apply Forall_app. split.
    + eapply List.Forall_impl; [|exact F1]. simpl. intros v Hv. lia.
    + constructor; [lia|constructor].
Qed.

Lemma exec_restoresPending st p :
  forall s, 0 <= _evaluatesPending s ->
            _evaluatesPending s + nesting p <= INT_MAX ->
            restoresPending s (fst (exec st p s)).
Proof.
  induction p as [v e | f ms k IHk | f ms k IHk | t k IHk | k IHk | m k IHk
                  | q IHq k IHk]; intros s H0 Hn; simpl in *.
  - destruct (finish_frame v e s) as (? & ? & ?). by apply restoresPending_frame.
  - destruct (setInterval_frame st f ms s) as (E & W & _).
    eapply restoresPending_trans; [by apply restoresPending_frame|].
    apply IHk; rewrite E; lia.
  - destruct (setTimeout_frame st f ms s) as (E & W & _).
    eapply restoresPending_trans; [by apply restoresPending_frame|].
    apply IHk; rewrite E; lia.
  - destruct (stopTimer_frame t s) as (E & W & _).
    eapply restoresPending_trans; [by apply restoresPending_frame|].
    apply IHk; rewrite E; lia.
  - eapply restoresPending_trans;
      [apply (restoresPending_frame s (stop s)); reflexivity|].
    apply IHk; simpl; lia.
  - eapply restoresPending_trans;
      [apply (restoresPending_frame s (print m s)); reflexivity|].
    apply IHk; simpl; lia.
  - pose proof (nesting_nonneg q) as Hq.
    assert (R : restoresPending s
               (fst (evaluate_with (fun s0 => exec st q (clearExceptions s0)) st s))).
    { apply evaluate_with_restoresPending; [lia|].
      intros s0 E0.
      eapply restoresPending_trans;
        [apply (restoresPending_frame s0 (clearExceptions s0)); reflexivity|].
      apply IHq; simpl; lia. }
    eapply restoresPending_trans; [exact R|].
    destruct R as [E _]. apply IHk; rewrite E; lia.
Qed.

(** C2: a call of evaluate that finds [_evaluatesPending] at a value
    [c >= 0], with room in the [int] for the deepest nesting of evaluate
    calls the program makes, returns with the counter at [c] again (so at
    0 for an outermost call), and every value the counter was assigned
    during the call, nested calls included, is at least [c], hence never
    negative. *)
Theorem evaluate_restores_pending st program s :
  0 <= _evaluatesPending s ->
  _evaluatesPending s + 1 + nesting program <= INT_MAX ->
  let s' := fst (evaluate st program s) in
  _evaluatesPending s' = _evaluatesPending s /\
  (_evaluatesPending s = 0 -> _evaluatesPending s' = 0) /\
  exists new, pendingWrites s' = pendingWrites s ++ new /\
              Forall (fun v => 0 <= _evaluatesPending s <= v) new.
Proof.
  intros H0 Hn s'. pose proof (nesting_nonneg program) as Hp.
  assert (R : restoresPending s s').
  { apply evaluate_with_restoresPending; [lia|].
    intros s0 E0. unfold QScriptEngine_evaluate.
    eapply restoresPending_trans;
      [apply (restoresPending_frame s0 (clearExceptions s0)); reflexivity|].
    apply exec_restoresPending; simpl; lia. }
  destruct R as [E (new & W & F)].
  split; [exact E|]. split; [congruence|].
  exists new. split; [exact W|].
  eapply List.Forall_impl; [|exact F]. simpl. intros; lia.
Qed.

Lemma evaluate_restores_pending_witness :
  let st := mkStatics false false in
  let program :=
    CallEvaluate (CallEvaluate (Return (PlainValue 1) None) (Return InvalidValue (Some 3)))
                 (CallSetTimeout (PlainValue 0) 5 (Return (PlainValue 2) None)) in
  let s := newScriptEngine program in
  let s' := fst (evaluate st program s) in
  _evaluatesPending s' = 0 /\
  pendingWrites s' = [1; 2; 3; 2; 1; 0].
Proof.
  intros st program s s'.
  destruct (evaluate_restores_pending st program s) as (E & _ & _).
  - simpl. lia.
  - vm_compute. discriminate.
  - split; [exact E | reflexivity].
Defined.

(** ** The evaluationFinished signal *)

Lemma extendsTrace_refl s s' : trace s' = trace s -> extendsTrace s s'.
Proof. intros H. exists []. by rewrite app_nil_r. Qed.

Lemma extendsTrace_trans s1 s2 s3 :
  extendsTrace s1 s2 -> extendsTrace s2 s3 -> extendsTrace s1 s3.
Proof.
  intros [t1 H1] [t2 H2]. exists (t1 ++ t2). by rewrite H2, H1, app_assoc.
Qed.

Lemma extendsTrace_emit s e : extendsTrace s (emit s e).
Proof. by exists [e]. Qed.

Lemma evaluate_with_extendsTrace interp st s :
  (forall s0, extendsTrace s0 (fst (interp s0))) ->
  extendsTrace s (fst (evaluate_with interp st s)).
Proof.
  intros Hi. unfold evaluate_with. destruct (_stoppingAllScripts st).
  { by apply extendsTrace_refl. }
  specialize (Hi (evaluate_enter s)).
  destruct (interp (evaluate_enter s)) as [s1 r]. cbn [fst] in *.
  destruct Hi as [tr Htr]. exists (tr ++ [evaluationFinished r (hasUncaughtException
    (set_evaluatesPending s1 (int32 (_evaluatesPending s1 - 1))))]).
  unfold evaluate_leave. simpl. rewrite Htr. simpl. by rewrite app_assoc.
Qed.

Lemma exec_extendsTrace st p : forall s, extendsTrace s (fst (exec st p s)).
Proof.
  induction p as [v e | f ms k IHk | f ms k IHk | t k IHk | k IHk | m k IHk
                  | q IHq k IHk]; intros s; simpl.
  - destruct (finish_frame v e s) as (_ & _ & H). by apply extendsTrace_refl.
  - destruct (setInterval_frame st f ms s) as (_ & _ & H).
    eapply extendsTrace_trans; [by apply extendsTrace_refl | apply IHk].
  - destruct (setTimeout_frame st f ms s) as (_ & _ & H).
    eapply extendsTrace_trans; [by apply extendsTrace_refl | apply IHk].
  - destruct (stopTimer_frame t s) as (_ & _ & H).
    eapply extendsTrace_trans; [by apply extendsTrace_refl | apply IHk].
  - eapply extendsTrace_trans; [|apply IHk].
    eapply extendsTrace_trans; [|apply extendsTrace_emit]. by apply extendsTrace_refl.
  - eapply extendsTrace_trans; [apply extendsTrace_emit | apply IHk].
  - eapply extendsTrace_trans; [|apply IHk].
    apply evaluate_with_extendsTrace. intros s0.
    eapply extendsTrace_trans; [|apply IHq]. by apply extendsTrace_refl.
Qed.

(** C4, as stated, fails: during a stop-all, evaluate returns at line 416
    and the trace of the engine has no evaluationFinished signal. *)
Lemma evaluate_while_stopping_is_silent :
  ~ (forall st program s,
       exists hadError,
         list.last (trace (fst (evaluate st program s)))
         = Some (evaluationFinished (snd (evaluate st program s)) hadError)).
Proof.
  intros H.
  destruct (H (mkStatics true false) (Return (PlainValue 1) None)
              (newScriptEngine (Return (PlainValue 1) None))) as [b Hb].
  vm_compute in Hb. discriminate.
Qed.

(** C4, amended: a call of evaluate made while [_stoppingAllScripts] is
    clear emits evaluationFinished as its last signal before returning,
    carrying the value it returns and whether the program left an exception
    uncaught; a call made while the flag is set returns the invalid value
    and leaves the engine as it was. *)
Theorem evaluate_signals_finished st program s :
  (_stoppingAllScripts st = false ->
   let ran := QScriptEngine_evaluate st program (evaluate_enter s) in
   let '(s', result) := evaluate st program s in
   result = snd ran /\
   exists tr,
     trace s' = trace s ++ tr
                ++ [evaluationFinished result (hasUncaughtException (fst ran))]) /\
  (_stoppingAllScripts st = true ->
   evaluate st program s = (s, InvalidValue)).
Proof.
  split; intros Hst; unfold evaluate, evaluate_with; rewrite Hst; [|reflexivity].
  cbn zeta.
  pose proof (exec_extendsTrace st program (clearExceptions (evaluate_enter s))) as [tr Htr].
  unfold QScriptEngine_evaluate in *.
  destruct (exec st program (clearExceptions (evaluate_enter s))) as [s1 r].
  cbn [fst snd] in *. split; [reflexivity|].
  exists tr. unfold evaluate_leave. simpl. rewrite Htr. simpl.
  rewrite <- app_assoc. reflexivity.
Qed.

Lemma evaluate_signals_finished_witness :
  let st := mkStatics false false in
  let program := CallPrint [104; 105] (Return (PlainValue 4) (Some 12)) in
  let s := newScriptEngine program in
  trace (fst (evaluate st program s))
  = [printedMessage [104; 105]; evaluationFinished (PlainValue 4) true] /\
  evaluate (mkStatics true false) program s = (s, InvalidValue).
Proof.
  intros st program s.
  destruct (evaluate_signals_finished st program s) as [H1 _].
  destruct (evaluate_signals_finished (mkStatics true false) program s) as [_ H2].
  split; [|apply H2; reflexivity].
  specialize (H1 eq_refl). cbn zeta in H1.
  destruct (evaluate st program s) as [s' r] eqn:E.
  destruct H1 as [_ [tr Htr]]. vm_compute in E. injection E as <- <-.
  reflexivity.
Defined.

(** ** Single-shot timers *)

Lemma calls_emit t s e :
  calls t (emit s e) = (calls t s + if isCallOf t e then 1 else 0)%nat.
Proof.
  unfold calls. simpl. rewrite List.filter_app, length_app. simpl.
  destruct (isCallOf t e); reflexivity.
Qed.

(** A step that leaves the timers and the calls of [t] alone keeps the
    invariant. *)
Lemma timerInv_frame b t s s' :
  timers s' = timers s -> nextTimer s' = nextTimer s -> calls t s' = calls t s ->
  timerInv b t s -> timerInv b t s'.
Proof. unfold timerInv. intros -> -> ->. done. Qed.

Lemma timerInv_setup b t f ms sh s :
  timerInv b t s -> timerInv b t (fst (setupTimerWithInterval f ms sh s)).
Proof.
  intros (Hwf & Ht). unfold timerInv, setupTimerWithInterval, calls in *. simpl.
  rewrite insert_insert_eq. split.
  - intros t' q H.
    destruct (decide (nextTimer s = t')) as [<-|Hn]; [lia|].
    rewrite lookup_insert_ne in H by done. apply Hwf in H. lia.
  - destruct (decide (nextTimer s = t)) as [<-|Hne].
    + rewrite lookup_insert_eq. simpl.
      destruct (timers s !! nextTimer s) as [q|] eqn:Hq.
      * apply Hwf in Hq. lia.
      * destruct Ht as [Ht _]. destruct Ht as [Hc Hb]; [lia|]. split; [done|].
        rewrite Hb. done.
    + rewrite lookup_insert_ne by done.
      destruct (timers s !! t); [done|]. destruct Ht as [Ht1 Ht2].
      split; [|done]. intros Hle. apply Ht1. lia.
Qed.

Lemma timerInv_stopTimer b t t' s : timerInv b t s -> timerInv b t (stopTimer t' s).
Proof.
  intros (Hwf & Ht). unfold stopTimer. case_bool_decide; [|done].
  unfold timerInv, calls in *. simpl. split.
  - intros t0 q H0. apply lookup_delete_Some in H0 as [_ H0].
    apply lookup_alter_Some in H0 as [(_ & q' & H0 & _)|[_ H0]]; eauto.
  - destruct (decide (t' = t)) as [->|Hne].
    + rewrite lookup_delete_eq. destruct (timers s !! t) as [q|] eqn:Hq; [|done].
      apply Hwf in Hq. destruct Ht as [Hs Hb]. split; [lia|].
      intros Hb'. rewrite Hs by auto. lia.
    + rewrite lookup_delete_ne, lookup_alter_ne by done. exact Ht.
Qed.

Lemma timerInv_setInterval b t st f ms s :
  timerInv b t s -> timerInv b t (fst (setInterval st f ms s)).
Proof.
  intros H. unfold setInterval. destruct (_stoppingAllScripts st); [done|].
  pose proof (timerInv_setup b t f ms false s H) as H'.
  destruct (setupTimerWithInterval f ms false s). exact H'.
Qed.

Lemma timerInv_setTimeout b t st f ms s :
  timerInv b t s -> timerInv b t (fst (setTimeout st f ms s)).
Proof.
  intros H. unfold setTimeout. destruct (_stoppingAllScripts st); [done|].
  pose proof (timerInv_setup b t f ms true s H) as H'.
  destruct (setupTimerWithInterval f ms true s). exact H'.
Qed.

Lemma timerInv_evaluate_with b t interp st s :
  (forall s0, timerInv b t s0 -> timerInv b t (fst (interp s0))) ->
  timerInv b t s -> timerInv b t (fst (evaluate_with interp st s)).
Proof.
  intros Hi H. unfold evaluate_with. destruct (_stoppingAllScripts st); [done|].
  assert (H1 : timerInv b t (evaluate_enter s)).
  { revert H. apply timerInv_frame; reflexivity. }
  apply Hi in H1. destruct (interp (evaluate_enter s)) as [s1 r]. cbn [fst] in *.
  revert H1. apply timerInv_frame; try reflexivity.
  unfold evaluate_leave, clearExceptions, calls. simpl.
  rewrite List.filter_app, length_app. simpl. lia.
Qed.

Lemma timerInv_exec b t st p :
  forall s, timerInv b t s -> timerInv b t (fst (exec st p s)).
Proof.
  induction p as [v e | f ms k IHk | f ms k IHk | t' k IHk | k IHk | m k IHk
                  | q IHq k IHk]; intros s H; simpl.
  - revert H. apply timerInv_frame; destruct e; reflexivity.
  - by apply IHk, timerInv_setInterval.
  - by apply IHk, timerInv_setTimeout.
  - by apply IHk, timerInv_stopTimer.
  - apply IHk. revert H. apply timerInv_frame; try reflexivity.
    unfold stop. rewrite calls_emit. simpl. unfold calls. simpl. lia.
  - apply IHk. revert H. apply timerInv_frame; try reflexivity.
    unfold print. rewrite calls_emit. simpl. lia.
  - apply IHk. apply timerInv_evaluate_with; [|done].
    intros s0 H0. apply IHq. revert H0. apply timerInv_frame; reflexivity.
Qed.

Lemma timerInv_call b t st f s : timerInv b t s -> timerInv b t (call st f s).
Proof. destruct f; simpl; auto. apply timerInv_exec. Qed.

Lemma timerInv_QTimer_stop b t t' s :
  timerInv b t s -> timerInv b t (QTimer_stop t' s).
Proof.
  intros (Hwf & Ht). unfold timerInv, QTimer_stop, calls in *. simpl. split.
  - intros t0 q H0.
    apply lookup_alter_Some in H0 as [(_ & q' & H0 & _)|[_ H0]]; eauto.
  - destruct (decide (t' = t)) as [->|Hne].
    + rewrite lookup_alter_eq. destruct (timers s !! t); simpl; done.
    + rewrite lookup_alter_ne by done. exact Ht.
Qed.

Lemma timerInv_timerFired b t st t' s :
  timerInv b t s ->
  (t' = t -> exists q, timers s !! t = Some q /\ isActive q = false) ->
  timerInv b t (timerFired st t' s).
Proof.
  intros (Hwf & Ht) Hfire. unfold timerFired, timerFired_with.
  set (f := default InvalidValue (_timerFunctionMap s !! t')).
  set (s1 := if negb (default false (isActive <$> timers s !! t')) then _ else s).
  assert (H1 : timerInv b t s1 /\
               (t' = t -> timers s1 !! t = None /\ (t < nextTimer s1)%positive /\
                          (b = true -> calls t s1 = 0%nat))).
  { subst s1. destruct (decide (t' = t)) as [->|Hne].
    - destruct (Hfire eq_refl) as (q & Hq & Hact). pose proof (Hwf _ _ Hq) as Hlt.
      rewrite Hq in *. simpl. rewrite Hact. destruct Ht as [Hs Hb].
      unfold timerInv, calls in *. simpl. rewrite lookup_delete_eq.
      split; [split|].
      + intros t0 q0 H0. apply lookup_delete_Some in H0 as [_ H0]. eauto.
      + split; [lia|]. intros Hb'. rewrite Hs by auto. lia.
      + intros _. split; [done|]. split; [done|]. auto.
    - split; [|done]. destruct (negb _); [|done].
      unfold timerInv, calls in *. simpl. rewrite lookup_delete_ne by done.
      split; [|done].
      intros t0 q0 H0. apply lookup_delete_Some in H0 as [_ H0]. eauto. }
  clearbody s1. destruct H1 as [H1 Hself].
  destruct (isValid f); [|done].
  apply timerInv_call. destruct H1 as [Hwf1 Ht1].
  unfold timerInv. rewrite calls_emit. simpl. split; [done|].
  destruct (decide (t' = t)) as [->|Hne].
  - destruct (Hself eq_refl) as (Hn & Hlt & Hc). rewrite Hn.
    rewrite bool_decide_eq_true_2 by done. split; [lia|].
    intros Hb. rewrite Hc by done. lia.
  - rewrite bool_decide_eq_false_2 by done. rewrite Nat.add_0_r. exact Ht1.
Qed.

Lemma timerInv_QTimer_timeout b t st t' s :
  timerInv b t s -> timerInv b t (QTimer_timeout st t' s).
Proof.
  intros H. unfold QTimer_timeout, QTimer_timeout_with.
  destruct (timers s !! t') as [q|] eqn:Hq; [|done].
  destruct (isActive q) eqn:Hact; [|done].
  destruct (isSingleShot q) eqn:Hs.
  - apply timerInv_timerFired; [by apply timerInv_QTimer_stop|].
    intros ->. unfold QTimer_stop. simpl. rewrite lookup_alter_eq, Hq. simpl.
    eexists. split; reflexivity.
  - destruct (decide (t' = t)) as [->|Hne].
    + (* a repeating timer: the invariant puts no bound on its calls *)
      destruct H as [Hwf Ht]. rewrite Hq in Ht. destruct Ht as [_ Hb].
      assert (Hbf : b = false) by (destruct b; [rewrite Hb in Hs by done; done|done]).
      subst b. unfold timerFired, timerFired_with. rewrite Hq. simpl. rewrite Hact. simpl.
      assert (He : forall e, timerInv false t (emit s e)).
      { intros e. unfold timerInv, calls. simpl. rewrite Hq. split; [done|].
        split; [rewrite Hs; done|done]. }
      destruct (isValid _); [apply timerInv_call, He|].
      unfold timerInv. rewrite Hq. split; [done|]. split; [rewrite Hs; done|done].
    + apply timerInv_timerFired; [done|]. intros ->. done.
Qed.

Lemma timerInv_stopAllTimers b t s :
  timerInv b t s -> timerInv b t (stopAllTimers s).
Proof.
  unfold stopAllTimers. generalize (map_to_list (_timerFunctionMap s)).
  intros l H. induction l as [|[t' v] l IH]; simpl; [done|].
  by apply timerInv_stopTimer.
Qed.

Lemma timerInv_engineOps b t ops :
  forall s, timerInv b t s -> timerInv b t (engineOps ops s).
Proof.
  unfold engineOps. induction ops as [|[st op] ops IH]; intros s H; simpl; [done|].
  apply IH. destruct op as [p | [t' | | n] | ]; simpl.
  - apply timerInv_evaluate_with; [|done]. intros s0 H0.
    apply timerInv_exec. revert H0. apply timerInv_frame; reflexivity.
  - by apply timerInv_QTimer_timeout.
  - revert H. apply timerInv_frame; try reflexivity.
    unfold stop. rewrite calls_emit. simpl. unfold calls. simpl. lia.
  - revert H. apply timerInv_frame; reflexivity.
  - by apply timerInv_stopAllTimers.
Qed.

Lemma timerInv_new t program : timerInv false t (newScriptEngine program).
Proof.
  unfold timerInv, calls. simpl. split.
  - intros t' q H. rewrite lookup_empty in H. done.
  - rewrite lookup_empty. done.
Qed.

Lemma timerInv_known t s q :
  timerInv false t s -> timers s !! t = Some q -> isSingleShot q = true ->
  timerInv true t s.
Proof.
  intros [Hwf Ht] Hq Hs. unfold timerInv. rewrite Hq in *. tauto.
Qed.

(** C5: take an engine at any point of its history and a live single-shot
    timer [t] in it.  When [t] times out, [t] is removed first and its
    function is called afterwards: there is one engine state, without the
    map entry and without the QTimer of [t], that the call is made on
    whatever the call then does, so that nothing the called function can
    do sees the entry of the timer that fired.  And however the history
    goes on, the function of [t] is called at most once in all. *)
Theorem single_shot_timer_fires_once program ops1 t q :
  let s := engineOps ops1 (newScriptEngine program) in
  timers s !! t = Some q ->
  isSingleShot q = true ->
  (forall f,
     isActive q = true -> _timerFunctionMap s !! t = Some f -> isValid f = true ->
     exists s1,
       _timerFunctionMap s1 !! t = None /\
       timers s1 !! t = None /\
       trace s1 = trace s ++ [timerFunctionCall t] /\
       (forall invoke, QTimer_timeout_with invoke t s = invoke f s1) /\
       (forall st, QTimer_timeout st t s = call st f s1)) /\
  (forall ops2, (calls t (engineOps ops2 s) <= 1)%nat).
Proof.
  intros s Hq Hs. split.
  - intros f Hact Hf Hv.
    exists (emit (delete_timer t
                    (set_timerFunctionMap (QTimer_stop t s)
                       (delete t (_timerFunctionMap (QTimer_stop t s)))))
                 (timerFunctionCall t)).
    split; [apply lookup_delete_eq|]. split; [apply lookup_delete_eq|].
    split; [reflexivity|].
    assert (Hany : forall invoke,
              QTimer_timeout_with invoke t s
              = invoke f (emit (delete_timer t
                                  (set_timerFunctionMap (QTimer_stop t s)
                                     (delete t (_timerFunctionMap (QTimer_stop t s)))))
                               (timerFunctionCall t))).
    { intros invoke. unfold QTimer_timeout_with. rewrite Hq, Hact, Hs.
      unfold timerFired_with.
      replace (_timerFunctionMap (QTimer_stop t s)) with (_timerFunctionMap s)
        by reflexivity.
      rewrite Hf. simpl. rewrite Hv, lookup_alter_eq, Hq. reflexivity. }
    split; [exact Hany|]. intros st. apply Hany.
  - intros ops2.
    assert (H : timerInv true t (engineOps ops2 s)).
    { apply timerInv_engineOps. apply (timerInv_known t s q); [|done|done].
      apply timerInv_engineOps, timerInv_new. }
    destruct H as [_ H]. destruct (timers (engineOps ops2 s) !! t) as [q'|].
    + destruct H as [Hc Hk]. rewrite Hc; [lia | by apply Hk].
    + destruct H as [_ H]. auto.
Qed.

Lemma single_shot_timer_fires_once_witness :
  let st := mkStatics false false in
  let callback := FunctionValue (CallClearTimer 1 (Return InvalidValue None)) in
  let program := CallSetTimeout callback 1 (Return InvalidValue None) in
  let s := engineOps [(st, OpEvaluate program)] (newScriptEngine program) in
  (exists s1, _timerFunctionMap s1 !! 1%positive = None /\
              (forall invoke, QTimer_timeout_with invoke 1 s = invoke callback s1) /\
              QTimer_timeout st 1 s = call st callback s1) /\
  calls 1 (engineOps [(st, OpDeliver (TimerTimeout 1));
                      (st, OpDeliver (TimerTimeout 1))] s) = 1%nat.
Proof.
  intros st callback program s.
  destruct (single_shot_timer_fires_once program [(st, OpEvaluate program)]
              1%positive (mkQTimer true true 1)) as [H1 H2];
    [reflexivity | reflexivity |].
  split.
  - destruct (H1 callback) as (s1 & Hm & _ & _ & Hany & Heq);
      [reflexivity | reflexivity | reflexivity |].
    exists s1. split; [exact Hm|]. split; [exact Hany | apply Heq].
  - vm_compute. reflexivity.
Defined.

(** ** The sound cursor *)

Lemma sendToNode_sound n node s pkt :
  let s' := fst (sendToNode n node (s, pkt)) in
  _avatarSound s' = _avatarSound s /\
  _numAvatarSoundSentBytes s' = _numAvatarSoundSentBytes s.
Proof. unfold sendToNode. destruct (getType node); simpl; auto. Qed.

Lemma eachNode_sound n nodes : forall s pkt,
  let s' := fst (foldl (fun acc node => sendToNode n node acc) (s, pkt) nodes) in
  _avatarSound s' = _avatarSound s /\
  _numAvatarSoundSentBytes s' = _numAvatarSoundSentBytes s.
Proof.
  induction nodes as [|node nodes IH]; intros s pkt; simpl; [auto|].
  destruct (sendToNode n node (s, pkt)) as [s1 pkt1] eqn:E.
  destruct (IH s1 pkt1) as [H1 H2].
  pose proof (sendToNode_sound n node s pkt) as [H3 H4]. rewrite E in H3, H4.
  simpl in *. split; congruence.
Qed.

Lemma SCRIPT_AUDIO_BUFFER_BYTES_eq samples :
  0 <= samples < 2 ^ 15 -> SCRIPT_AUDIO_BUFFER_BYTES samples = 2 * samples.
Proof.
  intros H. unfold SCRIPT_AUDIO_BUFFER_BYTES.
  rewrite (size_t_id samples) by lia.
  rewrite size_t_id by lia. rewrite int32_id by lia. lia.
Qed.

(** What lines 516-536 do to the cursor, for a cursor within the buffer. *)
Lemma pullAvatarSound_cursor samples buf s :
  0 <= samples < 2 ^ 15 ->
  _avatarSound s = Some buf ->
  Z.of_nat (length buf) < 2 ^ 31 ->
  0 <= _numAvatarSoundSentBytes s <= Z.of_nat (length buf) ->
  let size := Z.of_nat (length buf) in
  let sent := _numAvatarSoundSentBytes s in
  let advance := Z.min (2 * samples) (size - sent) in
  let s' := (pullAvatarSound samples buf s).1.1.1 in
  (sent + advance = size ->
   _avatarSound s' = None /\ _numAvatarSoundSentBytes s' = 0) /\
  (sent + advance <> size ->
   _avatarSound s' = Some buf /\ _numAvatarSoundSentBytes s' = sent + advance).
Proof.
  intros Hs Hb Hlen Hsent size sent advance s'.
  subst s'. unfold pullAvatarSound. cbn [fst].
  rewrite SCRIPT_AUDIO_BUFFER_BYTES_eq by done.
  fold size sent. rewrite (int32_id (size - sent)) by lia.
  set (numAvailableBytes := if bool_decide (2 * samples < size - sent)
                            then 2 * samples else size - sent).
  assert (Hn : numAvailableBytes = advance).
  { subst numAvailableBytes advance. case_bool_decide; lia. }
  rewrite Hn. rewrite (int32_id (sent + advance)) by lia.
  split; intros H.
  - rewrite bool_decide_eq_true_2 by done. split; reflexivity.
  - rewrite bool_decide_eq_false_2 by done. simpl. split; [exact Hb|reflexivity].
Qed.

(** C8: in an avatar frame with a sound buffer queued and the cursor
    within the buffer, the cursor moves forward by the smaller of one
    frame's worth of bytes and what is left; it never passes the end of the
    buffer; and the buffer is released, with the cursor back at zero,
    exactly when the cursor reaches the buffer length. *)
Theorem avatar_sound_cursor samples header nodes avatarData buf s :
  0 <= samples < 2 ^ 15 ->
  _isFinished s = false -> _isAvatar s = true -> _avatarData s = Some avatarData ->
  _avatarSound s = Some buf ->
  Z.of_nat (length buf) < 2 ^ 31 ->
  0 <= _numAvatarSoundSentBytes s <= Z.of_nat (length buf) ->
  let size := Z.of_nat (length buf) in
  let sent := _numAvatarSoundSentBytes s in
  let frameBytes := 2 * samples in
  let s' := snd (avatarFrame samples header nodes s) in
  exists advance,
    0 <= advance <= frameBytes /\
    sent + advance <= size /\
    0 <= _numAvatarSoundSentBytes s' <= size /\
    (sent + advance = size <-> _avatarSound s' = None) /\
    (_avatarSound s' = None -> _numAvatarSoundSentBytes s' = 0) /\
    (_avatarSound s' <> None ->
     _avatarSound s' = Some buf /\ _numAvatarSoundSentBytes s' = sent + advance).
Proof.
  intros Hs Hfin Hav Had Hb Hlen Hsent size sent frameBytes s'.
  exists (Z.min (2 * samples) (size - sent)).
  set (advance := Z.min (2 * samples) (size - sent)).
  set (s0 := emit s (broadcastToNodes (header PacketTypeAvatarData ++ toByteArray avatarData)
                                      AvatarMixer)).
  destruct (pullAvatarSound_cursor samples buf s0 Hs Hb Hlen Hsent) as [Hdone Hmore].
  change (_numAvatarSoundSentBytes s0) with sent in Hdone, Hmore.
  fold size advance in Hdone, Hmore.
  assert (Hs' : _avatarSound s' = _avatarSound (pullAvatarSound samples buf s0).1.1.1 /\
                _numAvatarSoundSentBytes s'
                = _numAvatarSoundSentBytes (pullAvatarSound samples buf s0).1.1.1).
  { subst s'. unfold avatarFrame. rewrite Had, Hfin, Hav. cbn [negb andb].
    fold s0. unfold audioFrame.
    replace (_avatarSound s0) with (Some buf) by (symmetry; exact Hb).
    rewrite bool_decide_eq_true_2 by eauto. rewrite orb_true_r.
    destruct (pullAvatarSound samples buf s0) as [[[s1 silent] n] out]. cbn [fst snd].
    destruct silent.
    - destruct (negb (_isListeningToAudioStream s1)); cbn [snd]; [auto|].
      apply eachNode_sound.
    - cbn [snd]. apply eachNode_sound. }
  destruct Hs' as [E1 E2].
  split; [lia|]. split; [lia|].
  destruct (decide (sent + advance = size)) as [Heq|Hne].
  - destruct (Hdone Heq) as [H1 H2]. rewrite E1, E2, H1, H2.
    split; [lia|]. split; [tauto|]. split; [done|]. intros H. done.
  - destruct (Hmore Hne) as [H1 H2]. rewrite E1, E2, H1, H2.
    split; [lia|]. split; [split; [done|discriminate]|]. split; [discriminate|done].
Qed.

Lemma avatar_sound_cursor_witness :
  let header := fun _ : PacketType => [65] in
  let avatarData := mkAvatarData [1] [2] [3] in
  let buf := [0; 0; 5; 0; 9; 9] in
  let s :=
    mkScriptEngine (Return InvalidValue None) false true true true ∅ true
      (Some buf) 0 (Some avatarData) 0 ∅ None ∅ 1%positive [] [] in
  let s' := snd (avatarFrame 2 header [mkNode AudioMixer 7] s) in
  _avatarSound s' = Some buf /\ _numAvatarSoundSentBytes s' = 4.
Proof.
  intros header avatarData buf s s'.
  destruct (avatar_sound_cursor 2 header [mkNode AudioMixer 7%N] avatarData buf s)
    as (advance & Ha & Hle & Hin & Hiff & Hnone & Hsome);
    [lia | reflexivity | reflexivity | reflexivity | reflexivity
     | simpl; lia | simpl; lia |].
  split; reflexivity.
Defined.

(** ** Silent frames *)

(** A silent frame on an engine that is not listening hands nothing to the
    node list: the audio block leaves the trace as it found it. *)
Lemma silent_unheard_frame_sends_nothing samples header avatarData nodes s :
  _isListeningToAudioStream s = false ->
  match _avatarSound s with
  | Some buf => (pullAvatarSound samples buf s).1.1.2 = true
  | None => True
  end ->
  trace (snd (audioFrame samples header avatarData nodes s)) = trace s.
Proof.
  intros Hl Hsil. unfold audioFrame. rewrite Hl. cbn [orb].
  destruct (_avatarSound s) as [buf|] eqn:Hb.
  - rewrite bool_decide_eq_true_2 by eauto.
    assert (Hp : _isListeningToAudioStream (pullAvatarSound samples buf s).1.1.1 = false
                 /\ trace (pullAvatarSound samples buf s).1.1.1 = trace s).
    { unfold pullAvatarSound. cbn [fst]. case_bool_decide; simpl; auto. }
    destruct (pullAvatarSound samples buf s) as [[[s1 silent] n] out].
    cbn [fst snd] in *. subst silent. destruct Hp as [Hl1 Ht]. rewrite Hl1.
    cbn [negb snd]. exact Ht.
  - rewrite bool_decide_eq_false_2; [reflexivity|]. intros [x Hx]. discriminate.
Qed.

(** C1 does not hold of the code: an avatar engine that is not listening
    plays a sound whose first frame is silence.  The first iteration takes
    the [break] of line 552: it leaves the loop.  No datagram is written, but
    run() goes on to its teardown although stop() was never called and
    [_isFinished] is still false: scriptEnding, finished and doneRunning
    are emitted, [_isRunning] is cleared, the rest of the sound is never
    played and the second frame is never run. *)
Theorem silent_unheard_frame_leaves_run_loop :
  let header := fun ty : PacketType =>
    match ty with
    | PacketTypeAvatarData => [6]
    | PacketTypeSilentAudioFrame => [7]
    | PacketTypeMicrophoneAudioNoEcho => [8]
    end in
  let st := mkStatics false false in
  let avatarData := mkAvatarData [1] [2] [3] in
  let sound := [0; 0; 0; 0; 5; 1] in
  let script := Return InvalidValue None in
  let s := mkScriptEngine script false false false true ∅ false
             (Some sound) 0 (Some avatarData) 0 ∅ None ∅ 1%positive [] [] in
  let f := mkFrame [] [mkNode AudioMixer 7] in
  fst (iteration 2 header st f (run_enter st s)) = Break /\
  exists s',
    run 2 header st [f; f] s = Some (mkStatics false true, s') /\
    _isFinished s' = false /\
    _isRunning s' = false /\
    _avatarSound s' = Some sound /\
    trace s' = [runningStateChanged;
                evaluationFinished InvalidValue false;
                broadcastToNodes [6; 1] AvatarMixer;
                scriptEnding; finished; runningStateChanged; doneRunning].
Proof.
  intros header st avatarData sound script s f. split; [reflexivity|].
  eexists. split; [vm_compute; reflexivity|].
  repeat split; reflexivity.
Qed.

(** ** Sequence numbers *)

Lemma read16_memcpy16 offset x data :
  (offset + 2 <= length data)%nat -> 0 <= x < 2 ^ 16 ->
  read16 offset (memcpy16 offset x data) = x.
Proof.
  intros Hlen Hx. unfold read16, memcpy16.
  rewrite list_lookup_insert_ne by lia.
  rewrite list_lookup_insert_eq by lia.
  rewrite list_lookup_insert_eq by (rewrite length_insert; lia).
  simpl. rewrite (Z.mod_small (x / 256)).
  - pose proof (Z.div_mod x 256). lia.
  - split; [apply Z.div_pos; lia|]. apply Z.div_lt_upper_bound; lia.
Qed.

Lemma trackerOps_sequences offset peer ops : forall s,
  packetsHold offset ops ->
  (forall v, _outgoingScriptAudioSequenceNumbers s !! peer = Some v -> 0 <= v < 2 ^ 16) ->
  exists tr,
    trace (trackerOps offset ops s) = trace s ++ tr /\
    sequencesTo offset peer tr
    = expectedSequences peer
        (default 0 (_outgoingScriptAudioSequenceNumbers s !! peer)) ops.
Proof.
  unfold trackerOps.
  induction ops as [|op ops IH]; intros s Hhold Hrange; simpl.
  { exists []. by rewrite app_nil_r. }
  inversion Hhold as [|op' ops' Hop Hhold']; subst op' ops'.
  clear Hhold; rename Hhold' into Hhold.
  destruct op as [pkt node | n]; simpl.
  - unfold sendToNode. destruct (getType node) eqn:Hty;
      [by apply IH | | by apply IH]. cbn [fst].
    set (m := _outgoingScriptAudioSequenceNumbers s) in *.
    set (old := default 0 (m !! getUUID node)).
    set (s1 := emit _ _).
    destruct (IH s1 Hhold) as (tr & Htr & Hseq).
    { intros v. subst s1. simpl. fold m.
      destruct (decide (getUUID node = peer)) as [->|Hne].
      - rewrite lookup_insert_eq. intros [= <-]. apply quint16_range.
      - rewrite lookup_insert_ne by done. apply Hrange. }
    exists (writeDatagram (memcpy16 offset old pkt) (getUUID node) :: tr).
    split.
    + rewrite Htr. subst s1. simpl. rewrite <- app_assoc. reflexivity.
    + simpl. rewrite Hseq. subst s1. simpl. fold m.
      destruct (decide (getUUID node = peer)) as [Heq|Hne].
      * subst old. rewrite !Heq, lookup_insert_eq. simpl. f_equal.
        rewrite read16_memcpy16; [reflexivity|done|].
        destruct (m !! peer) as [v|] eqn:Hv; simpl; [|lia].
        by apply Hrange.
      * rewrite lookup_insert_ne by done. reflexivity.
  - destruct (IH (nodeKilled n s) Hhold) as (tr & Htr & Hseq).
    { intros v. simpl. destruct (decide (n = peer)) as [->|Hne].
      - rewrite lookup_delete_eq. done.
      - rewrite lookup_delete_ne by done. apply Hrange. }
    exists tr. split; [exact Htr|]. rewrite Hseq. simpl.
    destruct (decide (n = peer)) as [->|Hne].
    + rewrite lookup_delete_eq. reflexivity.
    + rewrite lookup_delete_ne by done. reflexivity.
Qed.

(** C6: along any history of audio sends and disconnect notifications,
    the sequence numbers found in the datagrams written to a peer are the
    ones of a per-peer counter that starts at 0 for a peer without an
    entry, goes up by exactly one modulo 2^16 from one packet to the next,
    and starts over at 0 after nodeKilled; nodeKilled removes the peer's
    entry from the map. *)
Theorem audio_sequence_numbers offset peer ops s :
  packetsHold offset ops ->
  (forall v, _outgoingScriptAudioSequenceNumbers s !! peer = Some v -> 0 <= v < 2 ^ 16) ->
  sequencesTo offset peer (drop (length (trace s)) (trace (trackerOps offset ops s)))
  = expectedSequences peer
      (default 0 (_outgoingScriptAudioSequenceNumbers s !! peer)) ops /\
  _outgoingScriptAudioSequenceNumbers (nodeKilled peer (trackerOps offset ops s)) !! peer
  = None.
Proof.
  intros Hhold Hrange.
  destruct (trackerOps_sequences offset peer ops s Hhold Hrange) as (tr & Htr & Hseq).
  split.
  - rewrite Htr, drop_app_length. exact Hseq.
  - simpl. apply lookup_delete_eq.
Qed.

Lemma audio_sequence_numbers_witness :
  let s := newScriptEngine (Return InvalidValue None) in
  let a := mkNode AudioMixer 7 in
  let b := mkNode AudioMixer 9 in
  let pkt := [8; 0; 0; 42] in
  let ops := [AudioSend pkt a; AudioSend pkt b; AudioSend pkt a; Disconnect 7;
              AudioSend pkt a; AudioSend pkt a] in
  sequencesTo 1 7 (trace (trackerOps 1 ops s)) = [0; 1; 0; 1].
Proof.
  intros s a b pkt ops.
  destruct (audio_sequence_numbers 1 7%N ops s) as [H _].
  - unfold packetsHold, ops, pkt. repeat constructor.
  - intros v Hv. unfold s in Hv. simpl in Hv. rewrite lookup_empty in Hv. discriminate.
  - clear H. vm_compute. reflexivity.
Defined.

(** The sends of one audio block (the eachNode of lines 578-588) are such
    a history, and each of its packets holds the sequence bytes. *)
Lemma eachNode_is_history offset nodes : forall s audioPacket,
  (offset + 2 <= length audioPacket)%nat ->
  exists ops,
    packetsHold offset ops /\
    fst (foldl (fun acc node => sendToNode offset node acc) (s, audioPacket) nodes)
    = trackerOps offset ops s.
Proof.
  induction nodes as [|node nodes IH]; intros s pkt Hlen; cbn [foldl].
  { exists []. split; [constructor|reflexivity]. }
  destruct (sendToNode offset node (s, pkt)) as [s1 pkt1] eqn:E.
  assert (Hlen1 : (offset + 2 <= length pkt1)%nat).
  { unfold sendToNode in E. destruct (getType node); injection E as <- <-; try done.
    unfold memcpy16. rewrite !length_insert. done. }
  destruct (IH s1 pkt1 Hlen1) as (ops & Hhold & Heq).
  exists (AudioSend pkt node :: ops). split; [constructor; done|].
  rewrite Heq. unfold trackerOps. cbn [foldl trackerOp]. rewrite E. reflexivity.
Qed.


(** ** Timers: the map and the QTimer children *)

Lemma stopTimer_lookup timer k s :
  _timerFunctionMap (stopTimer timer s) !! k
  = if decide (k = timer) then None else _timerFunctionMap s !! k.
Proof.
  unfold stopTimer. case_bool_decide as H; simpl.
  - destruct (decide (k = timer)) as [->|Hne].
    + apply lookup_delete_eq.
    + by rewrite lookup_delete_ne.
  - destruct (decide (k = timer)) as [->|Hne]; [|done].
    destruct (_timerFunctionMap s !! timer) eqn:E; [|done].
    exfalso. apply H. eauto.
Qed.

Lemma timersTracked_setup f ms sh s :
  timersTracked s -> timersTracked (fst (setupTimerWithInterval f ms sh s)).
Proof.
  intros [Hdom Hwf]. unfold timersTracked, setupTimerWithInterval. simpl.
  rewrite insert_insert_eq. split.
  - intros t. destruct (decide (nextTimer s = t)) as [<-|Hne].
    + rewrite !lookup_insert_eq. split; eauto.
    + rewrite !lookup_insert_ne by done. apply Hdom.
  - intros t q H. destruct (decide (nextTimer s = t)) as [<-|Hne]; [lia|].
    rewrite lookup_insert_ne in H by done. apply Hwf in H. lia.
Qed.

Lemma timersTracked_stopTimer t s :
  timersTracked s -> timersTracked (stopTimer t s).
Proof.
  intros [Hdom Hwf]. unfold stopTimer. case_bool_decide; [|done].
  unfold timersTracked. simpl. split.
  - intros k. destruct (decide (t = k)) as [<-|Hne].
    + rewrite !lookup_delete_eq. split; intros [x Hx]; discriminate.
    + rewrite !lookup_delete_ne, lookup_alter_ne by done. apply Hdom.
  - intros k q Hk. apply lookup_delete_Some in Hk as [_ Hk].
    apply lookup_alter_Some in Hk as [(_ & q' & Hk & _)|[_ Hk]]; eauto.
Qed.

Lemma timersTracked_frame s s' :
  _timerFunctionMap s' = _timerFunctionMap s -> timers s' = timers s ->
  nextTimer s' = nextTimer s -> timersTracked s -> timersTracked s'.
Proof. unfold timersTracked. intros -> -> ->. done. Qed.

Lemma timersTracked_evaluate_with interp st s :
  (forall s0, timersTracked s0 -> timersTracked (fst (interp s0))) ->
  timersTracked s -> timersTracked (fst (evaluate_with interp st s)).
Proof.
  intros Hi H. unfold evaluate_with. destruct (_stoppingAllScripts st); [done|].
  assert (H1 : timersTracked (evaluate_enter s)).
  { revert H. apply timersTracked_frame; reflexivity. }
  apply Hi in H1. destruct (interp (evaluate_enter s)) as [s1 r]. cbn [fst] in *.
  revert H1. apply timersTracked_frame; reflexivity.
Qed.

Lemma timersTracked_exec st p :
  forall s, timersTracked s -> timersTracked (fst (exec st p s)).
Proof.
  induction p as [v e | f ms k IHk | f ms k IHk | t' k IHk | k IHk | m k IHk
                  | q IHq k IHk]; intros s H; simpl.
  - revert H. apply timersTracked_frame; destruct e; reflexivity.
  - apply IHk. unfold setInterval. destruct (_stoppingAllScripts st); [done|].
    pose proof (timersTracked_setup f ms false s H) as H'.
    destruct (setupTimerWithInterval f ms false s). exact H'.
  - apply IHk. unfold setTimeout. destruct (_stoppingAllScripts st); [done|].
    pose proof (timersTracked_setup f ms true s H) as H'.
    destruct (setupTimerWithInterval f ms true s). exact H'.
  - by apply IHk, timersTracked_stopTimer.
  - apply IHk. revert H. apply timersTracked_frame; reflexivity.
  - apply IHk. revert H. apply timersTracked_frame; reflexivity.
  - apply IHk. apply timersTracked_evaluate_with; [|done].
    intros s0 H0. apply IHq. revert H0. apply timersTracked_frame; reflexivity.
Qed.

Lemma timersTracked_QTimer_stop t s :
  timersTracked s -> timersTracked (QTimer_stop t s).
Proof.
  intros [Hdom Hwf]. unfold timersTracked, QTimer_stop. simpl. split.
  - intros k. rewrite Hdom. destruct (decide (t = k)) as [<-|Hne].
    + rewrite lookup_alter_eq. destruct (timers s !! t); simpl; split; intros [x Hx]; eauto; discriminate.
    + by rewrite lookup_alter_ne.
  - intros k q Hk.
    apply lookup_alter_Some in Hk as [(_ & q' & Hk & _)|[_ Hk]]; eauto.
Qed.

Lemma timersTracked_timerFired st t s :
  timersTracked s -> timersTracked (timerFired st t s).
Proof.
  intros H. unfold timerFired, timerFired_with.
  set (s1 := if negb _ then _ else s).
  assert (H1 : timersTracked s1).
  { subst s1. destruct (negb _); [|done]. destruct H as [Hdom Hwf].
    unfold timersTracked. simpl. split.
    - intros k. destruct (decide (t = k)) as [<-|Hne].
      + rewrite !lookup_delete_eq. split; intros [x Hx]; discriminate.
      + rewrite !lookup_delete_ne by done. apply Hdom.
    - intros k q Hk. apply lookup_delete_Some in Hk as [_ Hk]. eauto. }
  clearbody s1. destruct (isValid _); [|done].
  assert (H2 : timersTracked (emit s1 (timerFunctionCall t))).
  { revert H1. apply timersTracked_frame; reflexivity. }
  destruct (default InvalidValue _); simpl; try done.
  by apply timersTracked_exec.
Qed.

Lemma timersTracked_QTimer_timeout st t s :
  timersTracked s -> timersTracked (QTimer_timeout st t s).
Proof.
  intros H. unfold QTimer_timeout, QTimer_timeout_with. destruct (timers s !! t) as [q|]; [|done].
  destruct (isActive q); [|done]. apply timersTracked_timerFired.
  destruct (isSingleShot q); [by apply timersTracked_QTimer_stop|done].
Qed.

Lemma timersTracked_stopAllTimers s :
  timersTracked s -> timersTracked (stopAllTimers s).
Proof.
  unfold stopAllTimers. generalize (map_to_list (_timerFunctionMap s)).
  intros l H. induction l as [|[t v] l IH]; simpl; [done|].
  by apply timersTracked_stopTimer.
Qed.

Lemma timersTracked_new program : timersTracked (newScriptEngine program).
Proof.
  unfold timersTracked. simpl. split.
  - intros t. rewrite !lookup_empty. done.
  - intros t q H. rewrite lookup_empty in H. done.
Qed.

Lemma timersTracked_engineOps ops :
  forall s, timersTracked s -> timersTracked (engineOps ops s).
Proof.
  unfold engineOps.
  induction ops as [|[st op] ops IH]; intros s H; simpl; [done|].
  apply IH. destruct op as [p | [t' | | n] | ]; simpl.
  - apply timersTracked_evaluate_with; [|done]. intros s0 H0.
    apply timersTracked_exec. revert H0. apply timersTracked_frame; reflexivity.
  - by apply timersTracked_QTimer_timeout.
  - revert H. apply timersTracked_frame; reflexivity.
  - revert H. apply timersTracked_frame; reflexivity.
  - by apply timersTracked_stopAllTimers.
Qed.

(** X1: along every history of an engine, the keys of the timer map are
    exactly the live QTimer children, and no live timer sits at or above
    the allocation counter: the map never holds a pointer to a deleted
    timer and no timer lives outside the map. *)
Theorem timers_tracked_along_history program ops :
  timersTracked (engineOps ops (newScriptEngine program)).
Proof. apply timersTracked_engineOps, timersTracked_new. Qed.

Lemma setup_fresh function ms singleShot s :
  timersTracked s ->
  let '(s', t) := setupTimerWithInterval function ms singleShot s in
  _timerFunctionMap s !! t = None /\ timers s !! t = None /\
  _timerFunctionMap s' = <[t := function]> (_timerFunctionMap s) /\
  timers s' = <[t := mkQTimer singleShot true ms]> (timers s).
Proof.
  intros [Hdom Hwf].
  assert (Hfresh : timers s !! nextTimer s = None).
  { destruct (timers s !! nextTimer s) as [q|] eqn:E; [|done].
    apply Hwf in E. lia. }
  assert (Hfresh' : _timerFunctionMap s !! nextTimer s = None).
  { destruct (_timerFunctionMap s !! nextTimer s) as [v|] eqn:E; [|done].
    assert (Hs : is_Some (timers s !! nextTimer s)) by (apply Hdom; eauto).
    rewrite Hfresh in Hs. by destruct Hs. }
  unfold setupTimerWithInterval. simpl. rewrite insert_insert_eq. done.
Qed.

(** X3: outside a stop-all, setTimeout and setInterval hand out a handle
    that was neither a key of the timer map nor a live timer before; after
    the call the map holds the given function under that handle, the timer
    is live, active and single-shot exactly for setTimeout, and every other
    entry and timer is as it was. *)
Theorem new_timer_is_fresh st function ms s :
  _stoppingAllScripts st = false ->
  timersTracked s ->
  (exists s' t,
     setTimeout st function ms s = (s', Some t) /\
     _timerFunctionMap s !! t = None /\ timers s !! t = None /\
     _timerFunctionMap s' = <[t := function]> (_timerFunctionMap s) /\
     timers s' = <[t := mkQTimer true true ms]> (timers s)) /\
  (exists s' t,
     setInterval st function ms s = (s', Some t) /\
     _timerFunctionMap s !! t = None /\ timers s !! t = None /\
     _timerFunctionMap s' = <[t := function]> (_timerFunctionMap s) /\
     timers s' = <[t := mkQTimer false true ms]> (timers s)).
Proof.
  intros Hst Htr. unfold setTimeout, setInterval. rewrite Hst. split.
  - pose proof (setup_fresh function ms true s Htr) as H.
    destruct (setupTimerWithInterval function ms true s) as [s' t].
    exists s', t. split; [reflexivity | exact H].
  - pose proof (setup_fresh function ms false s Htr) as H.
    destruct (setupTimerWithInterval function ms false s) as [s' t].
    exists s', t. split; [reflexivity | exact H].
Qed.

Lemma new_timer_is_fresh_witness :
  let st := mkStatics false false in
  let program := CallSetInterval (PlainValue 1) 5 (Return InvalidValue None) in
  let s := engineOps [(st, OpEvaluate program)] (newScriptEngine program) in
  exists s' t, setTimeout st (PlainValue 2) 9 s = (s', Some t) /\
               _timerFunctionMap s !! t = None.
Proof.
  intros st program s.
  destruct (new_timer_is_fresh st (PlainValue 2) 9 s eq_refl) as [(s' & t & H & Hm & _) _].
  - apply timersTracked_engineOps, timersTracked_new.
  - exists s', t. split; [exact H | exact Hm].
Defined.

Lemma stopTimer_after_setup function ms singleShot s :
  timersTracked s ->
  let '(s', t) := setupTimerWithInterval function ms singleShot s in
  _timerFunctionMap (stopTimer t s') = _timerFunctionMap s /\
  timers (stopTimer t s') = timers s.
Proof.
  intros Htr. pose proof (setup_fresh function ms singleShot s Htr) as H.
  destruct (setupTimerWithInterval function ms singleShot s) as [s' t].
  destruct H as (Hm & Ht & Em & Et).
  unfold stopTimer. rewrite Em, lookup_insert_eq.
  rewrite bool_decide_eq_true_2 by eauto. simpl. rewrite Em, Et.
  split.
  - rewrite delete_insert_eq. by apply delete_id.
  - rewrite alter_insert_eq, delete_insert_eq. by apply delete_id.
Qed.

(** X4: clearing a timer right after it was set undoes the registration:
    the timer map and the QTimer children are those from before the
    setTimeout or setInterval. *)
Theorem clear_undoes_set st function ms s :
  _stoppingAllScripts st = false ->
  timersTracked s ->
  (exists s' t,
     setTimeout st function ms s = (s', Some t) /\
     _timerFunctionMap (stopTimer t s') = _timerFunctionMap s /\
     timers (stopTimer t s') = timers s) /\
  (exists s' t,
     setInterval st function ms s = (s', Some t) /\
     _timerFunctionMap (stopTimer t s') = _timerFunctionMap s /\
     timers (stopTimer t s') = timers s).
Proof.
  intros Hst Htr. unfold setTimeout, setInterval. rewrite Hst. split.
  - pose proof (stopTimer_after_setup function ms true s Htr) as H.
    destruct (setupTimerWithInterval function ms true s) as [s' t].
    exists s', t. split; [reflexivity | exact H].
  - pose proof (stopTimer_after_setup function ms false s Htr) as H.
    destruct (setupTimerWithInterval function ms false s) as [s' t].
    exists s', t. split; [reflexivity | exact H].
Qed.

Lemma clear_undoes_set_witness :
  let st := mkStatics false false in
  let s := newScriptEngine (Return InvalidValue None) in
  exists s' t, setTimeout st (PlainValue 2) 9 s = (s', Some t) /\
               _timerFunctionMap (stopTimer t s') = ∅.
Proof.
  intros st s.
  destruct (clear_undoes_set st (PlainValue 2) 9 s eq_refl) as [(s' & t & H & Hm & _) _].
  - apply timersTracked_new.
  - exists s', t. split; [exact H | exact Hm].
Defined.

(** ** What script code can do to the engine *)

Lemma scriptStep_refl s : scriptStep s s.
Proof.
  unfold scriptStep. split; [exists []; by rewrite app_nil_r|]. repeat split; auto.
Qed.

Lemma scriptStep_trans s1 s2 s3 :
  scriptStep s1 s2 -> scriptStep s2 s3 -> scriptStep s1 s3.
Proof.
  intros ((t1 & E1 & F1) & A1) ((t2 & E2 & F2) & A2). split.
  - exists (t1 ++ t2). split; [by rewrite E2, E1, app_assoc|].
    apply Forall_app. done.
  - destruct A1 as (?&?&?&?&?&?&?&?&?), A2 as (?&?&?&?&?&?&?&?&?).
    repeat split; try congruence. auto.
Qed.

(** A step that only touches members outside [scriptStep]. *)
Lemma scriptStep_frame s s' :
  trace s' = trace s -> _isAvatar s' = _isAvatar s ->
  _avatarData s' = _avatarData s -> _avatarSound s' = _avatarSound s ->
  _numAvatarSoundSentBytes s' = _numAvatarSoundSentBytes s ->
  _isListeningToAudioStream s' = _isListeningToAudioStream s ->
  _isRunning s' = _isRunning s -> _isInitialized s' = _isInitialized s ->
  _scriptContents s' = _scriptContents s -> _isFinished s' = _isFinished s ->
  scriptStep s s'.
Proof.
  intros Ht ? ? ? ? ? ? ? ? Hf. split.
  - exists []. by rewrite app_nil_r.
  - repeat split; try done. by rewrite Hf.
Qed.

Lemma scriptStep_emit s ev : fromScript ev = true -> scriptStep s (emit s ev).
Proof.
  intros H. split; [exists [ev]; split; [done|by constructor]|].
  repeat split; auto.
Qed.

Lemma scriptStep_setup f ms sh s :
  scriptStep s (fst (setupTimerWithInterval f ms sh s)).
Proof. apply scriptStep_frame; reflexivity. Qed.

Lemma scriptStep_stopTimer t s : scriptStep s (stopTimer t s).
Proof.
  unfold stopTimer. case_bool_decide; [|apply scriptStep_refl].
  apply scriptStep_frame; reflexivity.
Qed.

Lemma scriptStep_stop s : scriptStep s (stop s).
Proof.
  unfold stop. split; [exists [runningStateChanged]; split; [done|by constructor]|].
  repeat split; auto.
Qed.

Lemma scriptStep_evaluate_leave r s : scriptStep s (evaluate_leave r s).
Proof.
  unfold evaluate_leave. split.
  - eexists [_]. split; [reflexivity|]. by constructor.
  - repeat split; auto.
Qed.

Lemma scriptStep_evaluate_with interp st s :
  (forall s0, scriptStep s0 (fst (interp s0))) ->
  scriptStep s (fst (evaluate_with interp st s)).
Proof.
  intros Hi. unfold evaluate_with. destruct (_stoppingAllScripts st);
    [apply scriptStep_refl|].
  specialize (Hi (evaluate_enter s)).
  destruct (interp (evaluate_enter s)) as [s1 r]. cbn [fst] in *.
  apply (scriptStep_trans _ (evaluate_enter s)); [apply scriptStep_frame; reflexivity|].
  eapply scriptStep_trans; [exact Hi|]. apply scriptStep_evaluate_leave.
Qed.

Lemma scriptStep_exec st p : forall s, scriptStep s (fst (exec st p s)).
Proof.
  induction p as [v e | f ms k IHk | f ms k IHk | t' k IHk | k IHk | m k IHk
                  | q IHq k IHk]; intros s; simpl.
  - destruct e; [apply scriptStep_frame; reflexivity | apply scriptStep_refl].
  - eapply scriptStep_trans; [|apply IHk]. unfold setInterval.
    destruct (_stoppingAllScripts st); [apply scriptStep_refl|].
    pose proof (scriptStep_setup f ms false s) as H.
    destruct (setupTimerWithInterval f ms false s). exact H.
  - eapply scriptStep_trans; [|apply IHk]. unfold setTimeout.
    destruct (_stoppingAllScripts st); [apply scriptStep_refl|].
    pose proof (scriptStep_setup f ms true s) as H.
    destruct (setupTimerWithInterval f ms true s). exact H.
  - eapply scriptStep_trans; [apply scriptStep_stopTimer | apply IHk].
  - eapply scriptStep_trans; [apply scriptStep_stop | apply IHk].
  - eapply scriptStep_trans; [|apply IHk].
    apply (scriptStep_emit s (printedMessage m)). reflexivity.
  - eapply scriptStep_trans; [|apply IHk].
    apply scriptStep_evaluate_with. intros s0.
    apply (scriptStep_trans _ (clearExceptions s0));
      [apply scriptStep_frame; reflexivity | apply IHq].
Qed.

Lemma scriptStep_evaluate st p s : scriptStep s (fst (evaluate st p s)).
Proof.
  apply scriptStep_evaluate_with. intros s0. unfold QScriptEngine_evaluate.
  apply (scriptStep_trans _ (clearExceptions s0));
    [apply scriptStep_frame; reflexivity|].
  apply scriptStep_exec.
Qed.

Lemma scriptStep_QTimer_timeout st t s : scriptStep s (QTimer_timeout st t s).
Proof.
  unfold QTimer_timeout, QTimer_timeout_with. destruct (timers s !! t) as [q|]; [|apply scriptStep_refl].
  destruct (isActive q); [|apply scriptStep_refl].
  set (s0 := if isSingleShot q then QTimer_stop t s else s).
  assert (H0 : scriptStep s s0).
  { subst s0. destruct (isSingleShot q); [|apply scriptStep_refl].
    apply scriptStep_frame; reflexivity. }
  eapply scriptStep_trans; [exact H0|]. clearbody s0. unfold timerFired, timerFired_with.
  set (s1 := if negb _ then _ else s0).
  assert (H1 : scriptStep s0 s1).
  { subst s1. destruct (negb _); [|apply scriptStep_refl].
    apply scriptStep_frame; reflexivity. }
  eapply scriptStep_trans; [exact H1|]. clearbody s1.
  destruct (isValid _); [|apply scriptStep_refl].
  eapply scriptStep_trans;
    [apply (scriptStep_emit s1 (timerFunctionCall t)); reflexivity|].
  destruct (default InvalidValue _); simpl; try apply scriptStep_refl.
  apply scriptStep_exec.
Qed.

Lemma evaluate_clears_exception st p s :
  _stoppingAllScripts st = false ->
  uncaughtException (fst (evaluate st p s)) = None.
Proof.
  intros Hst. unfold evaluate, evaluate_with. rewrite Hst.
  destruct (QScriptEngine_evaluate st p (evaluate_enter s)) as [s1 r].
  reflexivity.
Qed.

(** X5: an evaluate call made outside a stop-all always returns with the
    uncaught-exception slot of the engine cleared, whatever the program
    threw; so the exception check that evaluate() without arguments makes
    after the call (lines 406-411) never fires, and evaluate() is the
    evaluation of [_scriptContents] on the initialised engine, without any
    errorMessage. *)
Theorem evaluate_leaves_no_exception st s :
  (forall program,
     _stoppingAllScripts st = false ->
     hasUncaughtException (fst (evaluate st program s)) = false) /\
  evaluate_contents st s
  = (if _stoppingAllScripts st then s
     else fst (evaluate st (_scriptContents (init s)) (init s))) /\
  scriptStep (init s) (evaluate_contents st (init s)).
Proof.
  split; [|split].
  - intros p Hst. unfold hasUncaughtException.
    rewrite evaluate_clears_exception by done.
    apply bool_decide_eq_false_2. intros [x Hx]. discriminate.
  - unfold evaluate_contents. destruct (_stoppingAllScripts st) eqn:Hst; [done|].
    assert (Hi : (if negb (_isInitialized s) then init s else s) = init s).
    { unfold init. destruct (_isInitialized s); reflexivity. }
    rewrite Hi.
    pose proof (evaluate_clears_exception st (_scriptContents (init s)) (init s) Hst) as Hc.
    destruct (evaluate st (_scriptContents (init s)) (init s)) as [s2 r].
    cbn [fst] in *. unfold hasUncaughtException. rewrite Hc.
    rewrite bool_decide_eq_false_2; [done|]. intros [x Hx]. discriminate.
  - unfold evaluate_contents. destruct (_stoppingAllScripts st) eqn:Hst;
      [apply scriptStep_refl|].
    assert (Hi : (if negb (_isInitialized (init s)) then init (init s) else init s) = init s).
    { unfold init. destruct (_isInitialized s) eqn:E; simpl; rewrite ?E; reflexivity. }
    rewrite Hi.
    pose proof (evaluate_clears_exception st (_scriptContents (init s)) (init s) Hst) as Hc.
    pose proof (scriptStep_evaluate st (_scriptContents (init s)) (init s)) as Hs.
    destruct (evaluate st (_scriptContents (init s)) (init s)) as [s2 r].
    cbn [fst] in *. unfold hasUncaughtException. rewrite Hc.
    rewrite bool_decide_eq_false_2; [done|]. intros [x Hx]. discriminate.
Qed.

Lemma evaluate_leaves_no_exception_witness :
  let st := mkStatics false false in
  let program := Return (PlainValue 3) (Some 7) in
  hasUncaughtException (fst (evaluate st program (newScriptEngine program))) = false.
Proof.
  intros st program.
  destruct (evaluate_leaves_no_exception st (newScriptEngine program)) as [H _].
  apply H. reflexivity.
Defined.

(** ** The run loop: stop and packets *)

Lemma scriptStep_deliver st e s : scriptStep s (deliver st e s).
Proof.
  destruct e as [t| |n]; simpl.
  - apply scriptStep_QTimer_timeout.
  - apply scriptStep_stop.
  - apply scriptStep_frame; reflexivity.
Qed.

Lemma scriptStep_processEvents st events :
  forall s, scriptStep s (processEvents st events s) /\
            (StopInvoked ∈ events -> _isFinished (processEvents st events s) = true).
Proof.
  unfold processEvents.
  induction events as [|e events IH]; intros s; simpl.
  { split; [apply scriptStep_refl|]. intros H. by apply elem_of_nil in H. }
  destruct (IH (deliver st e s)) as [Hs Hf].
  pose proof (scriptStep_deliver st e s) as Hd. split.
  - eapply scriptStep_trans; eauto.
  - intros Hin. apply elem_of_cons in Hin as [<-|Hin]; [|by apply Hf].
    destruct Hs as (_ & _ & _ & _ & _ & _ & _ & _ & _ & Hsticky).
    apply Hsticky. reflexivity.
Qed.

(** X6: a stop() that reaches the engine through processEvents() is seen
    in the same iteration: the iteration leaves the loop with [_isFinished]
    set, and after the events were processed it sends no packet and emits
    no update and no errorMessage. *)
Theorem stop_is_seen_within_the_iteration samples header st f s :
  StopInvoked ∈ delivered f ->
  exists s',
    iteration samples header st f s = (Break, s') /\
    _isFinished s' = true /\
    scriptStep s s'.
Proof.
  intros Hin. unfold iteration. destruct (_isFinished s) eqn:Hf.
  { exists s. split; [done|]. split; [done|apply scriptStep_refl]. }
  destruct (scriptStep_processEvents st (delivered f) s) as [Hs Hfin].
  rewrite (Hfin Hin). eexists. split; [reflexivity|]. split; [by apply Hfin|done].
Qed.

Lemma stop_is_seen_within_the_iteration_witness :
  let st := mkStatics false false in
  let header := fun _ : PacketType => [65] in
  let script := CallSetTimeout (FunctionValue (CallStop (Return InvalidValue None))) 1
                  (Return InvalidValue None) in
  let s := run_enter st (newScriptEngine script) in
  let f := mkFrame [TimerTimeout 1; StopInvoked] [] in
  fst (iteration 400 header st f s) = Break.
Proof.
  intros st header script s f.
  destruct (stop_is_seen_within_the_iteration 400 header st f s) as (s' & H & _).
  - unfold f. simpl. apply elem_of_cons. right. apply list_elem_of_here.
  - rewrite H. reflexivity.
Defined.

(** X7: an engine that is not an avatar, or has no avatar data, hands no
    packet to the node list in an iteration of its run loop, whatever
    events are delivered and whatever its timer functions do. *)
Theorem no_packets_without_avatar samples header st f s :
  _isAvatar s = false \/ _avatarData s = None ->
  exists tr,
    trace (snd (iteration samples header st f s)) = trace s ++ tr /\
    Forall (fun ev => isPacket ev = false) tr.
Proof.
  intros Hav. unfold iteration. destruct (_isFinished s).
  { exists []. split; [by rewrite app_nil_r|constructor]. }
  destruct (scriptStep_processEvents st (delivered f) s) as [Hs _].
  set (s1 := processEvents st (delivered f) s) in *.
  destruct Hs as ((tr & Htr & Hall) & Ha & Hd & _).
  assert (Hnp : Forall (fun ev => isPacket ev = false) tr).
  { eapply List.Forall_impl; [|exact Hall]. intros [] H; done. }
  destruct (_isFinished s1) eqn:Hf1.
  { exists tr. done. }
  assert (Hframe : avatarFrame samples header (eachNode f) s1 = (Continue, s1)).
  { unfold avatarFrame. rewrite Ha, Hd. destruct Hav as [-> | ->]; [|done].
    destruct (_avatarData s); [|done]. by rewrite andb_false_r. }
  rewrite Hframe.
  destruct (hasUncaughtException s1); simpl; rewrite ?Hf1; simpl; rewrite Htr.
  - exists (tr ++ [errorMessage (default 0 (uncaughtException s1)); update]).
    split; [by rewrite <- !app_assoc|].
    apply Forall_app. split; [done|]. repeat constructor.
  - exists (tr ++ [update]). split; [by rewrite <- !app_assoc|].
    apply Forall_app. split; [done|]. repeat constructor.
Qed.

Lemma no_packets_without_avatar_witness :
  let st := mkStatics false false in
  let header := fun _ : PacketType => [65] in
  let s := run_enter st (newScriptEngine (Return InvalidValue None)) in
  let f := mkFrame [] [mkNode AudioMixer 7] in
  trace (snd (iteration 400 header st f s)) = trace s ++ [update].
Proof.
  intros st header s f.
  destruct (no_packets_without_avatar 400 header st f s) as (tr & _ & _).
  - left. reflexivity.
  - vm_compute. reflexivity.
Defined.

(** ** Audio packets *)

Lemma memcpy16_placeholder h a b body x :
  memcpy16 (length h) x (h ++ a :: b :: body) = h ++ rawBytes16 x ++ body.
Proof.
  unfold memcpy16, rawBytes16.
  rewrite insert_app_r_alt by lia. rewrite Nat.sub_diag. simpl.
  rewrite insert_app_r_alt by lia.
  replace (S (length h) - length h)%nat with 1%nat by lia. reflexivity.
Qed.

(** The sends of one eachNode: one datagram per AudioMixer node, in node
    order, all with the same header and body. *)
Lemma eachNode_datagrams h body nodes : forall s a b,
  exists pairs,
    trace (fst (foldl (fun acc node => sendToNode (length h) node acc)
                      (s, h ++ a :: b :: body) nodes))
    = trace s ++ map (audioDatagram h body) pairs /\
    pairs.*1 = map getUUID (List.filter isAudioMixer nodes).
Proof.
  induction nodes as [|node nodes IH]; intros s a b; cbn [foldl].
  { exists []. split; [by rewrite app_nil_r | reflexivity]. }
  unfold sendToNode at 2. unfold isAudioMixer. cbn [List.filter].
  destruct (getType node) eqn:Hty; try apply IH.
  rewrite memcpy16_placeholder.
  set (x := default 0 _). set (s1 := emit _ _).
  destruct (IH s1 (x mod 256) ((x / 256) mod 256)) as (pairs & Htr & Hd).
  exists ((getUUID node, x) :: pairs). split.
  - unfold rawBytes16 at 1. simpl. rewrite Htr. subst s1. simpl.
    rewrite <- app_assoc. reflexivity.
  - simpl. f_equal. exact Hd.
Qed.

(** X9: an engine that is listening and has no sound queued sends, in its
    audio block, exactly one silent-frame datagram to each AudioMixer node
    of the node list, in list order, and nothing to any other node; each
    datagram is the silent-frame header, two sequence bytes, the sample
    budget as two bytes, the position and the head orientation; and the
    loop goes on. *)
Theorem silent_frame_packet samples header avatarData nodes s :
  _isListeningToAudioStream s = true ->
  _avatarSound s = None ->
  exists s' pairs,
    audioFrame samples header avatarData nodes s = (Continue, s') /\
    trace s'
    = trace s ++
      map (audioDatagram (header PacketTypeSilentAudioFrame)
             (rawBytes16 samples ++ getPosition avatarData
              ++ getHeadOrientation avatarData)) pairs /\
    pairs.*1 = map getUUID (List.filter isAudioMixer nodes).
Proof.
  intros Hl Hs. unfold audioFrame. rewrite Hl, Hs. cbn [orb negb].
  rewrite Hl. cbn [negb].
  set (h := header PacketTypeSilentAudioFrame).
  set (body := rawBytes16 samples ++ _).
  destruct (eachNode_datagrams h body nodes s 0 0) as (pairs & Htr & Hd).
  eexists _, pairs. split; [reflexivity|]. split; [|exact Hd].
  cbn [snd]. rewrite <- app_assoc. exact Htr.
Qed.

Lemma silent_frame_packet_witness :
  let header := fun _ : PacketType => [7; 7] in
  let avatarData := mkAvatarData [1] [2] [3] in
  let s := mkScriptEngine (Return InvalidValue None) false true true true ∅ true
             None 0 (Some avatarData) 0 ∅ None ∅ 1%positive [] [] in
  let nodes := [mkNode AvatarMixer 5; mkNode AudioMixer 7] in
  trace (snd (audioFrame 400 header avatarData nodes s))
  = [writeDatagram [7; 7; 0; 0; 144; 1; 2; 3] 7].
Proof.
  intros header avatarData s nodes.
  destruct (silent_frame_packet 400 header avatarData nodes s)
    as (s' & pairs & H & _); [reflexivity | reflexivity |].
  clear H. vm_compute. reflexivity.
Defined.

(** The outputs of lines 510-537 for a cursor within the buffer. *)
Lemma pullAvatarSound_outputs samples buf s :
  0 <= samples < 2 ^ 15 ->
  Z.of_nat (length buf) < 2 ^ 31 ->
  0 <= _numAvatarSoundSentBytes s <= Z.of_nat (length buf) ->
  let sent := _numAvatarSoundSentBytes s in
  let advance := Z.min (2 * samples) (Z.of_nat (length buf) - sent) in
  (pullAvatarSound samples buf s).1.2 = advance / 2 /\
  (pullAvatarSound samples buf s).2 = drop (Z.to_nat sent) buf /\
  trace (pullAvatarSound samples buf s).1.1.1 = trace s /\
  _outgoingScriptAudioSequenceNumbers (pullAvatarSound samples buf s).1.1.1
  = _outgoingScriptAudioSequenceNumbers s /\
  _isListeningToAudioStream (pullAvatarSound samples buf s).1.1.1
  = _isListeningToAudioStream s.
Proof.
  intros Hs Hlen Hsent sent advance. unfold pullAvatarSound. cbn [fst snd].
  rewrite SCRIPT_AUDIO_BUFFER_BYTES_eq by done. fold sent.
  rewrite (int32_id (Z.of_nat (length buf) - sent)) by lia.
  assert (Hn : (if bool_decide (2 * samples < Z.of_nat (length buf) - sent)
                then 2 * samples else Z.of_nat (length buf) - sent) = advance).
  { subst advance. case_bool_decide; lia. }
  rewrite Hn. split; [|split; [reflexivity|]].
  - rewrite size_t_id by lia. apply int16_id.
    assert (0 <= advance / 2) by (apply Z.div_pos; lia).
    assert (advance / 2 < 2 ^ 15) by (apply Z.div_lt_upper_bound; lia). lia.
  - destruct (bool_decide (int32 (sent + advance) = Z.of_nat (length buf)));
      repeat split; reflexivity.
Qed.

(** X10: an avatar frame that pulls at least one non-zero sample from the
    queued sound sends one voiced datagram to each AudioMixer node, in
    list order: the microphone header, two sequence bytes, the channel
    flag 0, the position, the head orientation, and the whole samples
    pulled, that is the next [2 * (advance / 2)] bytes of the sound, where
    [advance] is the smaller of one frame's worth of bytes and what is
    left of the sound. *)
Theorem voiced_frame_packet samples header avatarData nodes buf s :
  0 <= samples < 2 ^ 15 ->
  _avatarSound s = Some buf ->
  Z.of_nat (length buf) < 2 ^ 31 ->
  0 <= _numAvatarSoundSentBytes s <= Z.of_nat (length buf) ->
  (pullAvatarSound samples buf s).1.1.2 = false ->
  let sent := _numAvatarSoundSentBytes s in
  let advance := Z.min (2 * samples) (Z.of_nat (length buf) - sent) in
  exists s' pairs,
    audioFrame samples header avatarData nodes s = (Continue, s') /\
    trace s'
    = trace s ++
      map (audioDatagram (header PacketTypeMicrophoneAudioNoEcho)
             ([0] ++ getPosition avatarData ++ getHeadOrientation avatarData
              ++ take (Z.to_nat (2 * (advance / 2))) (drop (Z.to_nat sent) buf)))
          pairs /\
    pairs.*1 = map getUUID (List.filter isAudioMixer nodes).
Proof.
  intros Hs Hb Hlen Hsent Hvoiced sent advance.
  destruct (pullAvatarSound_outputs samples buf s Hs Hlen Hsent)
    as (Hn & Hout & Htr & _ & _).
  fold sent advance in Hn, Hout.
  unfold audioFrame. rewrite Hb. rewrite bool_decide_eq_true_2 by eauto.
  rewrite orb_true_r.
  destruct (pullAvatarSound samples buf s) as [[[s1 silent] n] out].
  cbn [fst snd] in *. subst silent n out.
  assert (Hadv : 0 <= advance / 2 < 2 ^ 15).
  { split; [apply Z.div_pos; lia|]. apply Z.div_lt_upper_bound; lia. }
  rewrite (size_t_id (advance / 2)) by lia.
  rewrite size_t_id by lia. rewrite int32_id by lia.
  replace (advance / 2 * 2) with (2 * (advance / 2)) by lia.
  set (h := header PacketTypeMicrophoneAudioNoEcho).
  set (body := [0] ++ _).
  destruct (eachNode_datagrams h body nodes s1 0 0) as (pairs & Hd & Hp).
  eexists _, pairs. split; [reflexivity|]. split; [|exact Hp].
  cbn [snd]. rewrite <- app_assoc, <- Htr. exact Hd.
Qed.

Lemma voiced_frame_packet_witness :
  let header := fun _ : PacketType => [8] in
  let avatarData := mkAvatarData [1] [2] [3] in
  let buf := [0; 0; 5; 1; 9] in
  let s := mkScriptEngine (Return InvalidValue None) false true true true ∅ false
             (Some buf) 2 (Some avatarData) 0 ∅ None ∅ 1%positive [] [] in
  trace (snd (audioFrame 400 header avatarData [mkNode AudioMixer 7] s))
  = [writeDatagram [8; 0; 0; 0; 2; 3; 5; 1] 7].
Proof.
  intros header avatarData buf s.
  destruct (voiced_frame_packet 400 header avatarData [mkNode AudioMixer 7%N] buf s)
    as (s' & pairs & H & _);
    [lia | reflexivity | simpl; lia | simpl; lia | vm_compute; reflexivity |].
  clear H. vm_compute. reflexivity.
Defined.

(** ** Playing a sound to its end *)

Lemma eachNode_flags n nodes : forall s pkt,
  let s' := fst (foldl (fun acc node => sendToNode n node acc) (s, pkt) nodes) in
  _isFinished s' = _isFinished s /\ _isAvatar s' = _isAvatar s /\
  _avatarData s' = _avatarData s.
Proof.
  induction nodes as [|node nodes IH]; intros s pkt; cbn [foldl]; [auto|].
  destruct (sendToNode n node (s, pkt)) as [s1 pkt1] eqn:E.
  destruct (IH s1 pkt1) as (H1 & H2 & H3).
  assert (_isFinished s1 = _isFinished s /\ _isAvatar s1 = _isAvatar s /\
          _avatarData s1 = _avatarData s) as (F1 & F2 & F3).
  { unfold sendToNode in E. destruct (getType node); injection E as <- _; auto. }
  cbn zeta. rewrite H1, H2, H3. auto.
Qed.

Lemma avatarFrame_flags samples header nodes s :
  let s' := snd (avatarFrame samples header nodes s) in
  _isFinished s' = _isFinished s /\ _isAvatar s' = _isAvatar s /\
  _avatarData s' = _avatarData s.
Proof.
  unfold avatarFrame. destruct (_avatarData s) as [ad|] eqn:Had; [|auto].
  destruct (negb (_isFinished s) && _isAvatar s); [|cbn; auto].
  set (s0 := emit s _).
  change (_isFinished s) with (_isFinished s0).
  change (_isAvatar s) with (_isAvatar s0).
  rewrite <- Had. change (_avatarData s) with (_avatarData s0).
  clearbody s0. unfold audioFrame.
  destruct (_ || _); [|cbn; auto].
  destruct (_avatarSound s0) as [buf|].
  - assert (Hp : let s1 := (pullAvatarSound samples buf s0).1.1.1 in
                 _isFinished s1 = _isFinished s0 /\ _isAvatar s1 = _isAvatar s0 /\
                 _avatarData s1 = _avatarData s0).
    { unfold pullAvatarSound. cbn [fst].
      destruct (bool_decide _); [|destruct (bool_decide _)]; cbn; auto;
        destruct (bool_decide _); cbn; auto. }
    destruct (pullAvatarSound samples buf s0) as [[[s1 silent] n] out].
    cbn [fst snd] in *. destruct Hp as (P1 & P2 & P3).
    rewrite <- P1, <- P2, <- P3.
    destruct silent; [destruct (negb _); cbn [snd]; [auto|]|]; cbn [snd];
      apply eachNode_flags.
  - cbn [negb]. destruct (negb _); cbn [snd]; [auto|]. apply eachNode_flags.
Qed.

Lemma avatarFrame_no_sound samples header nodes s :
  _avatarSound s = None ->
  let s' := snd (avatarFrame samples header nodes s) in
  _avatarSound s' = None /\
  _numAvatarSoundSentBytes s' = _numAvatarSoundSentBytes s.
Proof.
  intros Hs. unfold avatarFrame. destruct (_avatarData s) as [ad|]; [|auto].
  destruct (negb (_isFinished s) && _isAvatar s); [|cbn; auto].
  set (s0 := emit s _).
  rewrite <- Hs. change (_avatarSound s) with (_avatarSound s0).
  change (_numAvatarSoundSentBytes s) with (_numAvatarSoundSentBytes s0).
  assert (Hs0 : _avatarSound s0 = None) by exact Hs.
  clearbody s0. unfold audioFrame. rewrite Hs0.
  destruct (_ || _); [|cbn; auto].
  destruct (negb _); cbn [snd]; [auto|].
  rewrite <- Hs0. apply eachNode_sound.
Qed.

Lemma avatarFrame_sound samples header nodes avatarData buf s :
  0 <= samples < 2 ^ 15 ->
  _isFinished s = false -> _isAvatar s = true -> _avatarData s = Some avatarData ->
  _avatarSound s = Some buf ->
  Z.of_nat (length buf) < 2 ^ 31 ->
  0 <= _numAvatarSoundSentBytes s <= Z.of_nat (length buf) ->
  let size := Z.of_nat (length buf) in
  let sent := _numAvatarSoundSentBytes s in
  let advance := Z.min (2 * samples) (size - sent) in
  let s' := snd (avatarFrame samples header nodes s) in
  (sent + advance = size ->
   _avatarSound s' = None /\ _numAvatarSoundSentBytes s' = 0) /\
  (sent + advance <> size ->
   _avatarSound s' = Some buf /\ _numAvatarSoundSentBytes s' = sent + advance).
Proof.
  intros Hs Hfin Hav Had Hb Hlen Hsent size sent advance s'.
  set (s0 := emit s (broadcastToNodes (header PacketTypeAvatarData ++ toByteArray avatarData)
                                      AvatarMixer)).
  pose proof (pullAvatarSound_cursor samples buf s0 Hs Hb Hlen Hsent) as Hpull.
  cbn zeta in Hpull.
  change (_numAvatarSoundSentBytes s0) with sent in Hpull.
  fold size advance in Hpull.
  assert (Hs' : _avatarSound s' = _avatarSound (pullAvatarSound samples buf s0).1.1.1 /\
                _numAvatarSoundSentBytes s'
                = _numAvatarSoundSentBytes (pullAvatarSound samples buf s0).1.1.1).
  { subst s'. unfold avatarFrame. rewrite Had, Hfin, Hav. cbn [negb andb].
    fold s0. unfold audioFrame.
    replace (_avatarSound s0) with (Some buf) by (symmetry; exact Hb).
    rewrite bool_decide_eq_true_2 by eauto. rewrite orb_true_r.
    destruct (pullAvatarSound samples buf s0) as [[[s1 silent] n] out]. cbn [fst snd].
    destruct silent.
    - destruct (negb (_isListeningToAudioStream s1)); cbn [snd]; [auto|].
      apply eachNode_sound.
    - cbn [snd]. apply eachNode_sound. }
  destruct Hs' as [-> ->]. exact Hpull.
Qed.

Lemma eachNode_listening n nodes : forall s pkt,
  _isListeningToAudioStream
    (fst (foldl (fun acc node => sendToNode n node acc) (s, pkt) nodes))
  = _isListeningToAudioStream s.
Proof.
  induction nodes as [|node nodes IH]; intros s pkt; cbn [foldl]; [reflexivity|].
  destruct (sendToNode n node (s, pkt)) as [s1 pkt1] eqn:E.
  rewrite IH. unfold sendToNode in E.
  destruct (getType node); injection E as <- _; reflexivity.
Qed.

(** An engine that listens to the audio stream never takes the break of
    line 552, and goes on listening. *)
Lemma avatarFrame_listening samples header nodes s :
  _isListeningToAudioStream s = true ->
  fst (avatarFrame samples header nodes s) = Continue /\
  _isListeningToAudioStream (snd (avatarFrame samples header nodes s)) = true.
Proof.
  intros Hl. unfold avatarFrame. destruct (_avatarData s) as [ad|]; [|auto].
  destruct (negb (_isFinished s) && _isAvatar s); [|auto].
  set (s0 := emit s _).
  assert (Hl0 : _isListeningToAudioStream s0 = true) by exact Hl.
  clearbody s0. unfold audioFrame.
  destruct (_ || _); [|auto].
  destruct (_avatarSound s0) as [buf|].
  - assert (Hp : _isListeningToAudioStream (pullAvatarSound samples buf s0).1.1.1
                 = true).
    { unfold pullAvatarSound. cbn [fst].
      destruct (bool_decide _); [|destruct (bool_decide _)]; cbn; auto;
        destruct (bool_decide _); cbn; auto. }
    destruct (pullAvatarSound samples buf s0) as [[[s1 silent] n] out].
    cbn [fst snd] in *. rewrite Hp.
    destruct silent; cbn [negb fst snd]; rewrite eachNode_listening; auto.
  - rewrite Hl0. cbn [negb fst snd]. rewrite eachNode_listening. auto.
Qed.

Lemma avatarFrames_app samples header frames1 frames2 : forall s,
  avatarFrames samples header (frames1 ++ frames2) s
  = match avatarFrames samples header frames1 s with
    | (Break, s') => (Break, s')
    | (Continue, s') => avatarFrames samples header frames2 s'
    end.
Proof.
  induction frames1 as [|nodes frames1 IH]; intros s; cbn [app avatarFrames];
    [reflexivity|].
  destruct (avatarFrame samples header nodes s) as [[|] s1]; [apply IH|reflexivity].
Qed.

(** On a listening engine every avatar frame stays in the loop. *)
Lemma avatarFrames_listening samples header frames : forall s,
  _isListeningToAudioStream s = true ->
  exists s', avatarFrames samples header frames s = (Continue, s') /\
             _isListeningToAudioStream s' = true /\
             _isFinished s' = _isFinished s /\ _isAvatar s' = _isAvatar s /\
             _avatarData s' = _avatarData s.
Proof.
  induction frames as [|nodes frames IH]; intros s Hl; cbn [avatarFrames].
  - exists s. auto.
  - destruct (avatarFrame_listening samples header nodes s Hl) as [Hc Hl1].
    destruct (avatarFrame_flags samples header nodes s) as (F1 & F2 & F3).
    destruct (avatarFrame samples header nodes s) as [c s1]. cbn [fst snd] in *.
    subst c. destruct (IH s1 Hl1) as (s' & E & L & G1 & G2 & G3).
    exists s'. rewrite E. split; [reflexivity|]. split; [exact L|].
    split; [congruence|]. split; congruence.
Qed.

(** X11: a sound of [size] bytes queued on an avatar engine that listens
    to the audio stream, with the cursor at its start, is consumed one
    frame's worth of bytes per avatar frame, and no frame leaves the run
    loop: after [k] frames the cursor is at [k] times the frame length as
    long as that is short of the end, and from the first frame that
    reaches the end on the sound is released and the cursor is back at
    zero. *)
Theorem sound_is_played_out samples header avatarData buf frames s :
  1 <= samples < 2 ^ 15 ->
  _isFinished s = false -> _isAvatar s = true -> _avatarData s = Some avatarData ->
  _isListeningToAudioStream s = true ->
  _avatarSound s = Some buf ->
  _numAvatarSoundSentBytes s = 0 ->
  0 < Z.of_nat (length buf) < 2 ^ 31 ->
  let size := Z.of_nat (length buf) in
  let played := Z.of_nat (length frames) * (2 * samples) in
  exists s',
    avatarFrames samples header frames s = (Continue, s') /\
    (played < size ->
     _avatarSound s' = Some buf /\ _numAvatarSoundSentBytes s' = played) /\
    (size <= played ->
     _avatarSound s' = None /\ _numAvatarSoundSentBytes s' = 0).
Proof.
  intros Hs Hfin Hav Had Hl Hb Hsent Hlen size.
  induction frames as [|nodes frames IH] using rev_ind; intros played.
  { exists s. subst played. simpl. split; [reflexivity|]. split; [auto | lia]. }
  cbn zeta in IH. destruct IH as (sk & Ek & IHlt & IHge).
  destruct (avatarFrames_listening samples header frames s Hl)
    as (sk' & Ek' & Hlk & Hf & Ha & Hd).
  rewrite Ek in Ek'. injection Ek' as <-.
  rewrite Hfin in Hf. rewrite Hav in Ha. rewrite Had in Hd.
  destruct (avatarFrame_listening samples header nodes sk Hlk) as [Hc _].
  exists (snd (avatarFrame samples header nodes sk)).
  split.
  { rewrite avatarFrames_app, Ek. cbn [avatarFrames].
    destruct (avatarFrame samples header nodes sk) as [c s1]. cbn [fst snd] in *.
    subst c. reflexivity. }
  subst played. rewrite length_app. cbn [length].
  set (k := Z.of_nat (length frames)) in *.
  replace (Z.of_nat (length frames + 1)) with (k + 1) by lia.
  destruct (decide (k * (2 * samples) < size)) as [Hlt|Hge].
  - destruct (IHlt Hlt) as [Hsk Hck].
    assert (Hk0 : 0 <= k * (2 * samples)) by (subst k; nia).
    pose proof (avatarFrame_sound samples header nodes avatarData buf sk
                  ltac:(lia) Hf Ha Hd Hsk ltac:(lia) ltac:(rewrite Hck; lia))
      as Hstep.
    cbn zeta in Hstep. rewrite Hck in Hstep. fold size in Hstep.
    destruct Hstep as [Hdone Hmore].
    split; intros Hk.
    + destruct Hmore as [M1 M2]; [lia|]. split; [exact M1|]. rewrite M2. lia.
    + apply Hdone. lia.
  - destruct (IHge ltac:(lia)) as [Hsk Hck].
    destruct (avatarFrame_no_sound samples header nodes sk Hsk) as [H1 H2].
    split; intros Hk; [nia|]. split; [exact H1|]. cbn zeta in H2. congruence.
Qed.

Lemma sound_is_played_out_witness :
  let header := fun _ : PacketType => [8] in
  let avatarData := mkAvatarData [1] [2] [3] in
  let buf := [1; 0; 2; 0; 3; 0; 4; 0; 5; 0] in
  let s := mkScriptEngine (Return InvalidValue None) false true true true ∅ true
             (Some buf) 0 (Some avatarData) 0 ∅ None ∅ 1%positive [] [] in
  (exists s', avatarFrames 2 header [[]; []] s = (Continue, s') /\
              _numAvatarSoundSentBytes s' = 8) /\
  (exists s', avatarFrames 2 header [[]; []; []] s = (Continue, s') /\
              _avatarSound s' = None).
Proof.
  intros header avatarData buf s.
  destruct (sound_is_played_out 2 header avatarData buf [[]; []] s)
    as (s1 & E1 & H1 & _);
    [lia | reflexivity | reflexivity | reflexivity | reflexivity | reflexivity
     | reflexivity | simpl; lia |].
  destruct (sound_is_played_out 2 header avatarData buf [[]; []; []] s)
    as (s2 & E2 & _ & H2);
    [lia | reflexivity | reflexivity | reflexivity | reflexivity | reflexivity
     | reflexivity | simpl; lia |].
  split.
  - exists s1. split; [exact E1|]. apply H1. simpl. lia.
  - exists s2. split; [exact E2|]. apply H2. simpl. lia.
Defined.

(** ** The sequence counter over many packets *)

Lemma sendToNode_counter offset node pkt s :
  getType node = AudioMixer ->
  _outgoingScriptAudioSequenceNumbers (fst (sendToNode offset node (s, pkt)))
    !! getUUID node
  = Some (quint16 (default 0 (_outgoingScriptAudioSequenceNumbers s !! getUUID node) + 1)).
Proof.
  intros Hty. unfold sendToNode. rewrite Hty. simpl. apply lookup_insert_eq.
Qed.

Lemma trackerOps_counter offset node pkts : forall s,
  getType node = AudioMixer ->
  pkts <> [] ->
  _outgoingScriptAudioSequenceNumbers
    (trackerOps offset (map (fun p => AudioSend p node) pkts) s) !! getUUID node
  = Some ((default 0 (_outgoingScriptAudioSequenceNumbers s !! getUUID node)
           + Z.of_nat (length pkts)) mod 2 ^ 16).
Proof.
  unfold trackerOps.
  induction pkts as [|p pkts IH]; intros s Hty Hne; [done|].
  cbn [map foldl trackerOp length].
  pose proof (sendToNode_counter offset node p s Hty) as H1.
  set (s1 := fst (sendToNode offset node (s, p))) in *.
  destruct pkts as [|p' pkts'].
  - simpl. rewrite H1. reflexivity.
  - rewrite IH by done. rewrite H1. cbn [default]. unfold quint16.
    apply (f_equal Some). unfold id. rewrite Zplus_mod_idemp_l.
    apply (f_equal (fun x => x mod 2 ^ 16)). cbn [length]. lia.
Qed.

(** X12: after [n >= 1] audio packets to one AudioMixer peer the peer's
    counter holds its old value plus [n] modulo 2^16, so after 65536
    packets it is back at the value it had (0 for a peer without an entry). *)
Theorem sequence_counter_wraps offset node pkts s :
  getType node = AudioMixer ->
  let u := getUUID node in
  let old := default 0 (_outgoingScriptAudioSequenceNumbers s !! u) in
  let s' := trackerOps offset (map (fun p => AudioSend p node) pkts) s in
  0 <= old < 2 ^ 16 ->
  (pkts <> [] ->
   _outgoingScriptAudioSequenceNumbers s' !! u
   = Some ((old + Z.of_nat (length pkts)) mod 2 ^ 16)) /\
  (Z.of_nat (length pkts) = 2 ^ 16 ->
   _outgoingScriptAudioSequenceNumbers s' !! u = Some old).
Proof.
  intros Hty u old s' Hold. subst u s'. split.
  - intros Hne. by apply trackerOps_counter.
  - intros Hlen. rewrite trackerOps_counter; [|done|].
    + rewrite Hlen. fold old. apply (f_equal Some).
      replace (old + 2 ^ 16) with (old + 1 * 2 ^ 16) by lia.
      rewrite Z_mod_plus_full. apply Z.mod_small. done.
    + intros ->. simpl in Hlen. lia.
Qed.

Lemma sequence_counter_wraps_witness :
  let node := mkNode AudioMixer 7 in
  let s := newScriptEngine (Return InvalidValue None) in
  _outgoingScriptAudioSequenceNumbers
    (trackerOps 1 (map (fun p => AudioSend p node) [[8; 0; 0]; [8; 0; 0]; [8; 0; 0]]) s)
    !! 7%N = Some 3.
Proof.
  intros node s.
  destruct (sequence_counter_wraps 1 node [[8; 0; 0]; [8; 0; 0]; [8; 0; 0]] s) as [H _].
  - reflexivity.
  - simpl. rewrite lookup_empty. simpl. lia.
  - apply H. discriminate.
Defined.

(** ** stopAllScripts *)

Lemma isRunning_set_engine e0 e s w :
  isRunning e0 (set_engine e s w)
  = if decide (e = e0) then _isRunning s else isRunning e0 w.
Proof.
  unfold isRunning, set_engine. simpl. destruct (decide (e = e0)) as [->|Hne].
  - by rewrite lookup_insert_eq.
  - by rewrite lookup_insert_ne.
Qed.

Lemma isRunning_Some e w :
  isRunning e w = true -> exists s, engines w !! e = Some s /\ _isRunning s = true.
Proof.
  unfold isRunning. destruct (engines w !! e) as [s|]; simpl; [eauto|discriminate].
Qed.












(** The same happens when the run loop that ends is that of an avatar
    engine leaving through the break of line 552: engine 2 plays a silent
    sound without listening to the audio stream; while stopAllScripts
    waits for engine 1 the loop of engine 2 takes the break and sets the
    static; stopAllScripts returns with engine 1 still running. *)
Lemma stopAllScripts_released_by_silent_frame :
  let script := Return InvalidValue None in
  let header := fun _ : PacketType => [65] in
  let running := mkScriptEngine script false true true false ∅ false None 0
                   None 0 ∅ None ∅ 1%positive [] [] in
  let avatar := mkScriptEngine script false true true true ∅ false
                  (Some [0; 0; 0; 0]) 0 (Some (mkAvatarData [1] [2] [3])) 0 ∅ None
                  ∅ 1%positive [] [] in
  let w := mkWorld (mkStatics false false) [1; 2]%positive
             (<[1%positive := running]> (<[2%positive := avatar]> ∅)) ∅ in
  exists w', stopAllScripts [RunBreaks 2 2 header (mkFrame [] [])] w = Some ([], w') /\
             isRunning 1 w' = true /\ isRunning 2 w' = false /\
             _allKnownScriptEngines w' = [2%positive].
Proof.
  intros script header running avatar w.
  eexists. split; [vm_compute; reflexivity|]. repeat split; reflexivity.
Qed.



(** ** Engines that are not running *)

Lemma threadStep_registry step w :
  _allKnownScriptEngines (threadStep step w) = _allKnownScriptEngines w /\
  connectedToApplication (threadStep step w) = connectedToApplication w.
Proof.
  destruct step as [|e r|e|e|e|e c h f|e c h f]; cbn [threadStep]; auto;
    destruct (engines w !! e) as [s|]; auto.
  - destruct (evaluatePending s); auto.
  - destruct (_isRunning s && _isFinished s); auto.
  - destruct (_isRunning s); auto.
  - destruct (_isRunning s); auto.
    destruct (iteration c h (statics w) f s) as [[|] s']; auto.
  - destruct (_isRunning s); auto.
    destruct (iteration c h (statics w) f s) as [[|] s']; auto.
Qed.

Lemma threadStep_other e step w :
  engineOf step <> Some e -> engines (threadStep step w) !! e = engines w !! e.
Proof.
  destruct step as [|e' r|e'|e'|e'|e' c h f|e' c h f]; cbn [threadStep engineOf];
    intros Hne; auto;
    assert (e' <> e) by congruence;
    destruct (engines w !! e') as [s|]; auto.
  - destruct (evaluatePending s); simpl; [by rewrite lookup_insert_ne|done].
  - destruct (_isRunning s && _isFinished s); simpl; [by rewrite lookup_insert_ne|done].
  - destruct (_isRunning s); simpl; [done|by rewrite lookup_insert_ne].
  - simpl. by rewrite lookup_insert_ne.
  - destruct (_isRunning s); [|done].
    destruct (iteration c h (statics w) f s) as [[|] s']; [|done].
    simpl. by rewrite lookup_insert_ne.
  - destruct (_isRunning s); [|done].
    destruct (iteration c h (statics w) f s) as [[|] s']; [done|].
    simpl. by rewrite lookup_insert_ne.
Qed.

Lemma leavesAlone_refl e sched w : leavesAlone e sched w sched w.
Proof. unfold leavesAlone. tauto. Qed.

Lemma leavesAlone_step e step rest w sched' w' :
  leavesAlone e rest (threadStep step w) sched' w' ->
  leavesAlone e (step :: rest) w sched' w'.
Proof.
  intros (Hreg & Hcon & Hst). destruct (threadStep_registry step w) as [R C].
  rewrite R in Hreg. rewrite C in Hcon. split; [done|split; [done|]].
  intros Hall. inversion Hall as [|? ? Hstep Hrest]; subst.
  destruct (Hst Hrest) as [He Hq]. split; [|done].
  rewrite He. by apply threadStep_other.
Qed.

Lemma leavesAlone_trans e sched1 w1 sched2 w2 sched3 w3 :
  leavesAlone e sched1 w1 sched2 w2 -> leavesAlone e sched2 w2 sched3 w3 ->
  leavesAlone e sched1 w1 sched3 w3.
Proof.
  intros (R1 & C1 & S1) (R2 & C2 & S2). split; [tauto|split; [tauto|]].
  intros H. destruct (S1 H) as [E1 Q1]. destruct (S2 Q1) as [E2 Q2].
  split; [congruence|done].
Qed.

Lemma pollDoneRunning_leavesAlone e : forall sched w sched' w',
  pollDoneRunning sched w = Some (sched', w') -> leavesAlone e sched w sched' w'.
Proof.
  induction sched as [|step rest IH]; intros w sched' w'; simpl.
  - destruct (_doneRunningThisScript (statics w)); [|discriminate].
    intros [= <- <-]. apply leavesAlone_refl.
  - destruct (_doneRunningThisScript (statics w)).
    { intros [= <- <-]. apply leavesAlone_refl. }
    intros H. apply leavesAlone_step, IH, H.
Qed.

Lemma waitForEvaluations_leavesAlone e e' : forall sched inLoop w sched' w',
  waitForEvaluations inLoop e' sched w = Some (sched', w') ->
  leavesAlone e sched w sched' w'.
Proof.
  induction sched as [|step rest IH]; intros inLoop w sched' w'; simpl.
  - destruct (_ && _); [|discriminate].
    intros [= <- <-]. apply leavesAlone_refl.
  - destruct (_ && _).
    { intros [= <- <-]. apply leavesAlone_refl. }
    intros H. eapply leavesAlone_step, IH, H.
Qed.

(** The visit of another engine. *)
Lemma visit_leavesAlone e e' sched w sched' w' :
  e' <> e ->
  visit e' sched w = Some (sched', w') -> leavesAlone e sched w sched' w'.
Proof.
  intros Hne. unfold visit. destruct (isRunning e' w);
    [|intros [= <- <-]; apply leavesAlone_refl].
  destruct (waitForEvaluations false e' sched w) as [[sched1 w1]|] eqn:E1;
    simpl; [|discriminate].
  apply (waitForEvaluations_leavesAlone e) in E1.
  set (w2 := set_connectedToApplication (connectedToApplication w1 ∖ {[e']}) w1).
  set (w3 := match engines w1 !! e' with
             | Some s => set_engine e' (stop s) w2
             | None => w2
             end).
  unfold waitTillDoneRunning.
  set (w3' := set_doneRunningThisScript false w3).
  assert (H13 : leavesAlone e sched1 w1 sched1 w3 /\ leavesAlone e sched1 w1 sched1 w3').
  { assert (Hw3 : _allKnownScriptEngines w3 = _allKnownScriptEngines w1 /\
                  connectedToApplication w3 = connectedToApplication w1 ∖ {[e']} /\
                  engines w3 !! e = engines w1 !! e).
    { subst w3 w2. simpl. destruct (engines w1 !! e') as [s|]; simpl; [|done].
      rewrite lookup_insert_ne by done. done. }
    destruct Hw3 as (R & C & E).
    assert (Hc : e ∈ connectedToApplication w1 ∖ {[e']} <-> e ∈ connectedToApplication w1).
    { rewrite elem_of_difference, elem_of_singleton.
      split; [tauto | intros; split; [done | congruence]]. }
    unfold leavesAlone. subst w3'. simpl. rewrite R, C, E.
    split; (split; [done|split; [exact Hc|done]]). }
  assert (Hne' : e <> e') by congruence.
  destruct H13 as [H13 H13'].
  destruct (isRunning e' w3).
  - destruct (pollDoneRunning sched1 w3') as [[sched2 w4]|] eqn:E2;
      simpl; [|discriminate].
    apply (pollDoneRunning_leavesAlone e) in E2.
    intros [= <- <-].
    eapply leavesAlone_trans; [exact E1|].
    eapply leavesAlone_trans; [exact H13'|].
    eapply leavesAlone_trans; [exact E2|].
    unfold leavesAlone. simpl. rewrite list_elem_of_filter. tauto.
  - simpl. intros [= <- <-].
    eapply leavesAlone_trans; [exact E1|].
    eapply leavesAlone_trans; [exact H13|].
    unfold leavesAlone. simpl. rewrite list_elem_of_filter. tauto.
Qed.

Lemma sweep_leavesAlone e : forall l sched w sched' w',
  e ∉ l ->
  sweep l sched w = Some (sched', w') -> leavesAlone e sched w sched' w'.
Proof.
  induction l as [|e0 l IH]; intros sched w sched' w' Hnot; simpl.
  { intros [= <- <-]. apply leavesAlone_refl. }
  apply not_elem_of_cons in Hnot as [Hne Hnot].
  destruct (visit e0 sched w) as [[sched1 w1]|] eqn:E1; simpl; [|discriminate].
  intros E2. eapply leavesAlone_trans.
  - eapply visit_leavesAlone; [|exact E1]. congruence.
  - by apply IH.
Qed.

Lemma sweep_app l1 : forall l2 sched w,
  sweep (l1 ++ l2) sched w
  = match sweep l1 sched w with
    | Some (sched1, w1) => sweep l2 sched1 w1
    | None => None
    end.
Proof.
  induction l1 as [|e l1 IH]; intros l2 sched w; simpl; [done|].
  destruct (visit e sched w) as [[sched1 w1]|]; simpl; [apply IH|done].
Qed.

(** C9: let the sweep of stopAllScripts reach an engine [e] of the
    registry that is not running at that moment.  The visit of [e] returns
    at once with the world and the schedule as they were: [e] is not
    disconnected, not stopped and not waited on.  When stopAllScripts
    returns, [e] is still in the registry, and it is connected to the
    application exactly if it was; and when no step of the other threads
    was about [e], the state of [e] is the one it had before the call. *)
Theorem not_running_engine_untouched w sched pre e post sched1 w1 sched' w' :
  _allKnownScriptEngines w = pre ++ e :: post ->
  NoDup (_allKnownScriptEngines w) ->
  sweep pre sched (set_stoppingAllScripts true w) = Some (sched1, w1) ->
  isRunning e w1 = false ->
  stopAllScripts sched w = Some (sched', w') ->
  visit e sched1 w1 = Some (sched1, w1) /\
  e ∈ _allKnownScriptEngines w' /\
  (e ∈ connectedToApplication w' <-> e ∈ connectedToApplication w) /\
  (Forall (fun step => engineOf step <> Some e) sched ->
   engines w' !! e = engines w !! e).
Proof.
  intros Hreg Hnd Hpre Hrun. unfold stopAllScripts.
  change (_allKnownScriptEngines (set_stoppingAllScripts true w))
    with (_allKnownScriptEngines w).
  rewrite Hreg in *. rewrite sweep_app, Hpre. simpl.
  assert (Hv : visit e sched1 w1 = Some (sched1, w1)).
  { unfold visit. by rewrite Hrun. }
  rewrite Hv. simpl.
  destruct (sweep post sched1 w1) as [[sched2 w2]|] eqn:Hpost; simpl; [|discriminate].
  intros [= <- <-].
  apply list.NoDup_app in Hnd as (_ & Hpre_post & Hnd).
  apply list.NoDup_cons in Hnd as [Hpost_e _].
  assert (Hpre_e : e ∉ pre).
  { intros Hin. apply (Hpre_post e Hin). apply list_elem_of_here. }
  destruct (sweep_leavesAlone e _ _ _ _ _ Hpre_e Hpre) as (R1 & C1 & S1).
  destruct (sweep_leavesAlone e _ _ _ _ _ Hpost_e Hpost) as (R2 & C2 & S2).
  split; [done|]. split; [|split].
  - simpl. apply R2, R1. simpl. rewrite Hreg.
    apply elem_of_app. right. apply list_elem_of_here.
  - simpl. rewrite C2, C1. done.
  - intros Hall. destruct (S1 Hall) as [E1 Q1]. destruct (S2 Q1) as [E2 _].
    simpl. rewrite E2, E1. done.
Qed.

Lemma not_running_engine_untouched_witness :
  let script := Return InvalidValue None in
  let running := mkScriptEngine script false true true false ∅ false None 0
                   None 0 ∅ None ∅ 1%positive [] [] in
  let sandbox := newScriptEngine script in
  let w := mkWorld (mkStatics false false) [1; 2]%positive
             (<[1%positive := running]> (<[2%positive := sandbox]> ∅))
             {[1%positive; 2%positive]} in
  match stopAllScripts [Idle; RunReturns 1] w with
  | Some (_, w') =>
      _allKnownScriptEngines w' = [2%positive] /\
      engines w' !! 2%positive = Some sandbox /\
      (2%positive ∈ connectedToApplication w')
  | None => False
  end.
Proof.
  intros script running sandbox w.
  destruct (stopAllScripts [Idle; RunReturns 1] w) as [[sched' w']|] eqn:E;
    [|vm_compute in E; discriminate].
  destruct (sweep [1%positive] [Idle; RunReturns 1] (set_stoppingAllScripts true w))
    as [[sched1 w1]|] eqn:E1; [|vm_compute in E1; discriminate].
  destruct (not_running_engine_untouched w [Idle; RunReturns 1] [1%positive]
              2%positive [] sched1 w1 sched' w') as (_ & _ & Hc & He).
  - reflexivity.
  - simpl. apply list.NoDup_cons. split.
    + intros H. apply list_elem_of_singleton in H. discriminate.
    + apply list.NoDup_cons. split; [apply not_elem_of_nil | constructor].
  - exact E1.
  - vm_compute in E1. injection E1 as <- <-. reflexivity.
  - exact E.
  - split; [vm_compute in E; injection E as _ <-; reflexivity|].
    split.
    + rewrite He; [reflexivity|]. repeat constructor; simpl; congruence.
    + apply Hc. simpl. set_solver.
Defined.
(** ** stopAllScripts: what it does in any schedule *)

Lemma pollDoneRunning_registry : forall sched w sched' w',
  pollDoneRunning sched w = Some (sched', w') ->
  _allKnownScriptEngines w' = _allKnownScriptEngines w /\
  exists done, sched = done ++ sched'.
Proof.
  induction sched as [|step rest IH]; intros w sched' w'; simpl.
  - destruct (_doneRunningThisScript (statics w)); [|discriminate].
    intros [= <- <-]. split; [done|]. by exists [].
  - destruct (_doneRunningThisScript (statics w)).
    { intros [= <- <-]. split; [done|]. by exists []. }
    intros H. apply IH in H as [R [d ->]].
    destruct (threadStep_registry step w) as [R' _].
    split; [congruence|]. by exists (step :: d).
Qed.

Lemma waitForEvaluations_registry e : forall sched inLoop w sched' w',
  waitForEvaluations inLoop e sched w = Some (sched', w') ->
  _allKnownScriptEngines w' = _allKnownScriptEngines w /\
  (exists done, sched = done ++ sched') /\
  default false (evaluatePending <$> engines w' !! e) = false.
Proof.
  induction sched as [|step rest IH]; intros inLoop w sched' w'; simpl.
  - destruct inLoop; simpl; [discriminate|].
    destruct (default false (evaluatePending <$> engines w !! e)) eqn:E;
      simpl; [discriminate|].
    intros [= <- <-]. split; [done|]. split; [by exists []|done].
  - destruct (negb inLoop && negb (default false (evaluatePending <$> engines w !! e)))
      eqn:E.
    { intros [= <- <-]. split; [done|]. split; [by exists []|].
      apply andb_true_iff in E as [_ E]. by apply negb_true_iff in E. }
    intros H. apply IH in H as (R & [d ->] & P).
    destruct (threadStep_registry step w) as [R' _].
    split; [congruence|]. split; [by exists (step :: d)|done].
Qed.

(** X13: the wait of lines 136-146 ends only when the engine has no
    evaluate call in flight: whatever the other threads do, when control
    comes back from the wait the engine's [_evaluatesPending] is not
    positive, the registry is as it was, and only steps from the front of
    the schedule were consumed. *)
Theorem wait_ends_with_no_evaluation_pending inLoop e sched w sched' w' :
  waitForEvaluations inLoop e sched w = Some (sched', w') ->
  (forall s, engines w' !! e = Some s -> evaluatePending s = false) /\
  _allKnownScriptEngines w' = _allKnownScriptEngines w /\
  exists done, sched = done ++ sched'.
Proof.
  intros H. apply waitForEvaluations_registry in H as (R & D & P).
  split; [|done]. intros s Hs. rewrite Hs in P. exact P.
Qed.

Lemma wait_ends_with_no_evaluation_pending_witness :
  let script := Return InvalidValue None in
  let busy := mkScriptEngine script false true true false ∅ false None 0
                None 2 ∅ None ∅ 1%positive [] [] in
  let w := mkWorld (mkStatics true false) [1%positive] (<[1%positive := busy]> ∅) ∅ in
  let sched := [EvaluateReturns 1 (PlainValue 0); Idle;
                EvaluateReturns 1 (PlainValue 1); Idle] in
  match waitForEvaluations false 1 sched w with
  | Some (sched', w') =>
      (forall s, engines w' !! 1%positive = Some s -> evaluatePending s = false) /\
      sched' = [Idle]
  | None => False
  end.
Proof.
  intros script busy w sched.
  destruct (waitForEvaluations false 1 sched w) as [[sched' w']|] eqn:E;
    [|vm_compute in E; discriminate].
  destruct (wait_ends_with_no_evaluation_pending _ _ _ _ _ _ E) as (H & _ & _).
  split; [exact H|]. vm_compute in E. injection E as <- _. reflexivity.
Defined.

Lemma visit_registry e sched w sched' w' :
  visit e sched w = Some (sched', w') ->
  (_allKnownScriptEngines w' = _allKnownScriptEngines w \/
   _allKnownScriptEngines w'
   = filter (fun e' => e' ≠ e) (_allKnownScriptEngines w)) /\
  exists done, sched = done ++ sched'.
Proof.
  unfold visit. destruct (isRunning e w).
  2:{ intros [= <- <-]. split; [by left|by exists []]. }
  destruct (waitForEvaluations false e sched w) as [[sched1 w1]|] eqn:E1;
    simpl; [|discriminate].
  apply waitForEvaluations_registry in E1 as (R1 & [d1 ->] & _).
  set (w3 := match engines w1 !! e with Some s => _ | None => _ end).
  assert (R3 : _allKnownScriptEngines w3 = _allKnownScriptEngines w1).
  { subst w3. destruct (engines w1 !! e); reflexivity. }
  unfold waitTillDoneRunning. destruct (isRunning e w3).
  - destruct (pollDoneRunning sched1 (set_doneRunningThisScript false w3))
      as [[sched2 w4]|] eqn:E2; simpl; [|discriminate].
    apply pollDoneRunning_registry in E2 as (R4 & [d2 ->]).
    intros [= <- <-].
    assert (R : _allKnownScriptEngines w4 = _allKnownScriptEngines w).
    { rewrite R4.
      change (_allKnownScriptEngines w3 = _allKnownScriptEngines w). congruence. }
    split.
    + right. unfold set_allKnownScriptEngines. cbn [_allKnownScriptEngines].
      rewrite R. reflexivity.
    + exists (d1 ++ d2). by rewrite app_assoc.
  - simpl. intros [= <- <-].
    assert (R : _allKnownScriptEngines w3 = _allKnownScriptEngines w) by congruence.
    split.
    + right. unfold set_allKnownScriptEngines. cbn [_allKnownScriptEngines].
      rewrite R. reflexivity.
    + by exists d1.
Qed.

Lemma sweep_registry : forall l sched w sched' w',
  sweep l sched w = Some (sched', w') ->
  (forall e, e ∈ _allKnownScriptEngines w' -> e ∈ _allKnownScriptEngines w) /\
  (NoDup (_allKnownScriptEngines w) -> NoDup (_allKnownScriptEngines w')) /\
  exists done, sched = done ++ sched'.
Proof.
  induction l as [|e l IH]; intros sched w sched' w'; simpl.
  { intros [= <- <-]. split; [done|]. split; [done|by exists []]. }
  destruct (visit e sched w) as [[sched1 w1]|] eqn:E1; simpl; [|discriminate].
  apply visit_registry in E1 as (R1 & [d1 ->]).
  intros H. apply IH in H as (S2 & N2 & [d2 ->]).
  split; [|split].
  - intros x Hx. apply S2 in Hx. destruct R1 as [R1|R1]; rewrite R1 in Hx; [done|].
    apply list_elem_of_filter in Hx as [_ ?]. done.
  - intros Hnd. apply N2. destruct R1 as [R1|R1]; rewrite R1; [done|].
    by apply list.NoDup_filter.
  - exists (d1 ++ d2). by rewrite app_assoc.
Qed.

(** X14: whatever the other threads do, stopAllScripts only ever removes
    engines from the registry: every engine registered when it returns was
    registered when it was called, a registry without duplicates stays
    without duplicates, [_stoppingAllScripts] is clear on return, and the
    steps it consumed are a prefix of the schedule. *)
Theorem stopAllScripts_only_removes sched w sched' w' :
  stopAllScripts sched w = Some (sched', w') ->
  (forall e, e ∈ _allKnownScriptEngines w' -> e ∈ _allKnownScriptEngines w) /\
  (NoDup (_allKnownScriptEngines w) -> NoDup (_allKnownScriptEngines w')) /\
  _stoppingAllScripts (statics w') = false /\
  exists done, sched = done ++ sched'.
Proof.
  unfold stopAllScripts.
  destruct (sweep _ sched (set_stoppingAllScripts true w)) as [[sched2 w2]|] eqn:E;
    simpl; [|discriminate].
  intros [= <- <-]. apply sweep_registry in E as (S & N & D).
  split; [exact S|]. split; [exact N|]. split; [reflexivity|exact D].
Qed.

Lemma stopAllScripts_only_removes_witness :
  let script := Return InvalidValue None in
  let running := mkScriptEngine script false true true false ∅ false None 0
                   None 0 ∅ None ∅ 1%positive [] [] in
  let w := mkWorld (mkStatics false false) [1; 2]%positive
             (<[1%positive := running]> (<[2%positive := newScriptEngine script]> ∅)) ∅ in
  match stopAllScripts [StopCalled 2; RunReturns 1; Idle] w with
  | Some (sched', w') =>
      (forall e, e ∈ _allKnownScriptEngines w' -> e ∈ _allKnownScriptEngines w) /\
      _stoppingAllScripts (statics w') = false /\
      _allKnownScriptEngines w' = [2%positive]
  | None => False
  end.
Proof.
  intros script running w.
  destruct (stopAllScripts [StopCalled 2; RunReturns 1; Idle] w)
    as [[sched' w']|] eqn:E; [|vm_compute in E; discriminate].
  destruct (stopAllScripts_only_removes _ _ _ _ E) as (H1 & _ & H2 & _).
  split; [exact H1|]. split; [exact H2|].
  vm_compute in E. injection E as _ <-. reflexivity.
Defined.

Lemma sweep_idle : forall l sched w,
  (forall e, e ∈ l -> isRunning e w = false) ->
  sweep l sched w = Some (sched, w).
Proof.
  induction l as [|e l IH]; intros sched w H; simpl; [done|].
  unfold visit. rewrite (H e) by apply list_elem_of_here. simpl.
  apply IH. intros e' He'. apply H. by apply list_elem_of_further.
Qed.

(** X15: when no registered engine is running, stopAllScripts returns at
    once: it waits for nothing, consumes no step of the schedule, and
    leaves the registry, the engines and their connections as they were;
    only [_stoppingAllScripts] is (again) clear. *)
Theorem stopAllScripts_with_nothing_running sched w :
  (forall e, e ∈ _allKnownScriptEngines w -> isRunning e w = false) ->
  stopAllScripts sched w = Some (sched, set_stoppingAllScripts false w).
Proof.
  intros H. unfold stopAllScripts.
  rewrite sweep_idle; [reflexivity|]. exact H.
Qed.

Lemma stopAllScripts_with_nothing_running_witness :
  let w := mkWorld (mkStatics false false) [1%positive]
             (<[1%positive := newScriptEngine (Return InvalidValue None)]> ∅) ∅ in
  stopAllScripts [RunEnters 1] w = Some ([RunEnters 1], w).
Proof.
  intros w. rewrite (stopAllScripts_with_nothing_running [RunEnters 1] w).
  - reflexivity.
  - intros e He. apply list_elem_of_singleton in He as ->. reflexivity.
Defined.

Lemma sweep_blocks : forall l w,
  (exists e, e ∈ l /\ isRunning e w = true) ->
  sweep l [] w = None.
Proof.
  induction l as [|e0 l IH]; intros w (e & Hin & Hr).
  { by apply elem_of_nil in Hin. }
  simpl. unfold visit. destruct (isRunning e0 w) eqn:Hr0.
  - destruct (waitForEvaluations false e0 [] w) as [[sched1 w1]|] eqn:E1;
      simpl; [|done].
    simpl in E1.
    destruct (negb (default false (evaluatePending <$> engines w !! e0)));
      [|discriminate].
    injection E1 as <- <-.
    destruct (isRunning_Some _ _ Hr0) as (s & Hs & Hrs). rewrite Hs.
    unfold waitTillDoneRunning. rewrite isRunning_set_engine.
    rewrite decide_True by done. simpl. rewrite Hrs. reflexivity.
  - simpl. apply IH. exists e. split; [|done].
    apply elem_of_cons in Hin as [->|?]; [congruence|done].
Qed.

(** X16: stopAllScripts has no timeout: when a registered engine is
    running and the other threads make no step, it does not return. *)
Theorem stopAllScripts_blocks_without_progress w e :
  e ∈ _allKnownScriptEngines w ->
  isRunning e w = true ->
  stopAllScripts [] w = None.
Proof.
  intros Hin Hr. unfold stopAllScripts.
  rewrite sweep_blocks; [reflexivity|]. exists e. split; [exact Hin|exact Hr].
Qed.

Lemma stopAllScripts_blocks_without_progress_witness :
  let script := Return InvalidValue None in
  let running := mkScriptEngine script false true true false ∅ false None 0
                   None 0 ∅ None ∅ 1%positive [] [] in
  let w := mkWorld (mkStatics false false) [2; 1]%positive
             (<[1%positive := running]> (<[2%positive := newScriptEngine script]> ∅)) ∅ in
  stopAllScripts [] w = None.
Proof.
  intros script running w.
  apply (stopAllScripts_blocks_without_progress w 1%positive).
  - apply list_elem_of_further, list_elem_of_here.
  - reflexivity.
Defined.

(** ** The registry: constructor and destructor *)

Lemma filter_absent (e : EnginePtr) (l : list positive) :
  e ∉ l -> filter (fun e' => e' ≠ e) l = l.
Proof.
  induction l as [|x l IH]; intros Hn; [done|].
  apply not_elem_of_cons in Hn as [Hne Hn].
  rewrite filter_cons_True by congruence. by rewrite IH.
Qed.

(** X17: registering an engine puts it in the registry once (a registry
    without duplicates stays so) and makes it reachable; outside a stop-all
    the destructor takes exactly that engine out again, so that destroying
    a freshly registered engine gives the registry back as it was; during
    a stop-all the destructor leaves the registry as it is, so the pointer
    of the destroyed engine stays registered. *)
Theorem registry_follows_engines e s w :
  (e ∈ _allKnownScriptEngines (register e s w) /\
   engines (register e s w) !! e = Some s /\
   (NoDup (_allKnownScriptEngines w) ->
    NoDup (_allKnownScriptEngines (register e s w)))) /\
  (_stoppingAllScripts (statics w) = false ->
   (e ∉ _allKnownScriptEngines (destroy e w)) /\
   (forall e', e' <> e ->
      ((e' ∈ _allKnownScriptEngines (destroy e w))
       <-> (e' ∈ _allKnownScriptEngines w))) /\
   (e ∉ _allKnownScriptEngines w ->
    _allKnownScriptEngines (destroy e (register e s w)) = _allKnownScriptEngines w)) /\
  (_stoppingAllScripts (statics w) = true ->
   _allKnownScriptEngines (destroy e w) = _allKnownScriptEngines w /\
   engines (destroy e w) !! e = None).
Proof.
  split; [|split].
  - unfold register. simpl. rewrite lookup_insert_eq. case_bool_decide as Hin.
    + split; [done|]. split; done.
    + split; [apply elem_of_app; right; apply list_elem_of_here|].
      split; [done|]. intros Hnd. apply list.NoDup_app. split; [done|].
      split; [|apply NoDup_singleton].
      intros x Hx Hx'. apply list_elem_of_singleton in Hx'. congruence.
  - intros Hst. unfold destroy. rewrite Hst. simpl. split; [|split].
    + rewrite list_elem_of_filter. tauto.
    + intros e' Hne. rewrite list_elem_of_filter. tauto.
    + intros Hnot. unfold register. simpl.
      rewrite bool_decide_eq_false_2 by done. simpl. rewrite Hst. simpl.
      rewrite list.filter_app.
      assert (Hs : filter (fun e' => e' ≠ e) [e] = []).
      { rewrite filter_cons. rewrite decide_False by tauto. reflexivity. }
      rewrite Hs, app_nil_r. by apply filter_absent.
  - intros Hst. unfold destroy. rewrite Hst. simpl. split; [done|].
    apply lookup_delete_eq.
Qed.

Lemma registry_follows_engines_witness :
  let s := newScriptEngine (Return InvalidValue None) in
  let w := mkWorld (mkStatics false false) [1%positive] (<[1%positive := s]> ∅) ∅ in
  _allKnownScriptEngines (destroy 2 (register 2 s w)) = [1%positive] /\
  _allKnownScriptEngines (destroy 1 (set_stoppingAllScripts true w)) = [1%positive].
Proof.
  intros s w.
  destruct (registry_follows_engines 2%positive s w) as (_ & H & _).
  destruct (registry_follows_engines 1%positive s (set_stoppingAllScripts true w))
    as (_ & _ & H').
  split.
  - apply H; [reflexivity|]. simpl. intros Hin.
    apply list_elem_of_singleton in Hin. discriminate.
  - apply H'. reflexivity.
Defined.

(** ** getFilename *)

Lemma split_nonempty sep s : split sep s <> [].
Proof.
  destruct s as [|c rest]; simpl; [done|].
  case_bool_decide; [done|]. destruct (split sep rest); done.
Qed.

Lemma split_app sep a b : split sep (a ++ sep :: b) = split sep a ++ split sep b.
Proof.
  induction a as [|c a IH]; simpl.
  - rewrite bool_decide_eq_true_2 by done. reflexivity.
  - case_bool_decide; [by rewrite IH|]. rewrite IH.
    pose proof (split_nonempty sep a) as Hn.
    destruct (split sep a) as [|p ps]; [done|]. reflexivity.
Qed.

Lemma split_no_sep sep s : sep ∉ s -> split sep s = [s].
Proof.
  induction s as [|c rest IH]; intros Hn; simpl; [done|].
  apply not_elem_of_cons in Hn as [Hne Hn].
  rewrite bool_decide_eq_false_2 by congruence. by rewrite IH.
Qed.

Lemma split_parts sep s : Forall (fun part => sep ∉ part) (split sep s).
Proof.
  induction s as [|c rest IH]; simpl.
  - constructor; [apply not_elem_of_nil|constructor].
  - case_bool_decide as Hc.
    + constructor; [apply not_elem_of_nil|done].
    + destruct (split sep rest) as [|p ps].
      * constructor; [|constructor]. apply not_elem_of_cons. split; [congruence|].
        apply not_elem_of_nil.
      * inversion IH as [|? ? Hp Hps]; subst. constructor; [|done].
        apply not_elem_of_cons. split; [congruence|done].
Qed.

Lemma getFilename_last path : getFilename path = List.last (split 47 path) [].
Proof. unfold getFilename. destruct (split 47 path); reflexivity. Qed.

Lemma last_app_nonempty {A} (l1 l2 : list A) d :
  l2 <> [] -> List.last (l1 ++ l2) d = List.last l2 d.
Proof.
  intros Hn. induction l1 as [|x l1 IH]; [done|].
  simpl. destruct (l1 ++ l2) eqn:E; [|exact IH].
  apply app_eq_nil in E as [_ ->]. done.
Qed.

(** X18: getFilename gives what follows the last slash of the file name
    string: for a name without a slash behind any directory part it is that
    name, a string without a slash is its own file name, and the result
    never contains a slash. *)
Theorem getFilename_is_last_segment :
  (forall dir name, 47 ∉ name -> getFilename (dir ++ 47 :: name) = name) /\
  (forall name, 47 ∉ name -> getFilename name = name) /\
  (forall path, 47 ∉ getFilename path).
Proof.
  split; [|split].
  - intros dir name Hn. rewrite getFilename_last, split_app.
    rewrite last_app_nonempty by apply split_nonempty.
    by rewrite split_no_sep.
  - intros name Hn. rewrite getFilename_last. by rewrite split_no_sep.
  - intros path. rewrite getFilename_last.
    pose proof (split_parts 47 path) as Hall.
    pose proof (split_nonempty 47 path) as Hne.
    induction (split 47 path) as [|p ps IH]; [done|].
    inversion Hall as [|? ? Hp Hps]; subst.
    destruct ps as [|p' ps']; [exact Hp|]. apply IH; done.
Qed.

Lemma getFilename_is_last_segment_witness :
  getFilename [104; 47; 47; 97; 47; 98; 46; 106; 115] = [98; 46; 106; 115] /\
  getFilename [97; 47] = [].
Proof.
  destruct getFilename_is_last_segment as [H _]. split.
  - apply (H [104; 47; 47; 97] [98; 46; 106; 115]).
    intros Hin. repeat (apply elem_of_cons in Hin as [Hin|Hin]; [discriminate|]).
    by apply elem_of_nil in Hin.
  - apply (H [97] []). apply not_elem_of_nil.
Defined.

(** ** debugPrint *)

Lemma replace_cons before after c s :
  replace before after (c :: s)
  = (if bool_decide (c = before) then after else [c]) ++ replace before after s.
Proof. reflexivity. Qed.

Lemma replace_app before after a b :
  replace before after (a ++ b) = replace before after a ++ replace before after b.
Proof. unfold replace. apply flat_map_app. Qed.

Lemma escapeMessage_cons c message :
  escapeMessage (c :: message)
  = (if bool_decide (c = 92) then [92; 92]
     else if bool_decide (c = 10) then [92; 110]
     else if bool_decide (c = 13) then [92; 114]
     else if bool_decide (c = 39) then [92; 39]
     else [c]) ++ escapeMessage message.
Proof.
  unfold escapeMessage. rewrite (replace_cons 92). rewrite !replace_app.
  f_equal.
  destruct (decide (c = 92)) as [->|H92]; [reflexivity|].
  destruct (decide (c = 10)) as [->|H10]; [reflexivity|].
  destruct (decide (c = 13)) as [->|H13]; [reflexivity|].
  destruct (decide (c = 39)) as [->|H39]; [reflexivity|].
  unfold replace. simpl.
  repeat (rewrite (bool_decide_eq_false_2 (c = _)) by done; simpl).
  reflexivity.
Qed.

Lemma isLineTerminator_false c :
  c <> 10 -> c <> 13 -> c <> 8232 -> c <> 8233 -> isLineTerminator c = false.
Proof.
  intros. unfold isLineTerminator.
  repeat (rewrite (bool_decide_eq_false_2 (c = _)) by done). reflexivity.
Qed.

Lemma escapeMessage_reads_back message : forall rest,
  8232 ∉ message -> 8233 ∉ message ->
  readLiteral (escapeMessage message ++ 39 :: rest) = Some (message, rest).
Proof.
  intros rest. induction message as [|c message IH]; intros H1 H2.
  - simpl. reflexivity.
  - apply not_elem_of_cons in H1 as [Hc1 H1]. apply not_elem_of_cons in H2 as [Hc2 H2].
    specialize (IH H1 H2). rewrite escapeMessage_cons.
    repeat case_bool_decide; subst; simpl; rewrite IH; try reflexivity.
    rewrite (bool_decide_eq_false_2 (c = 39)) by done.
    rewrite isLineTerminator_false by done.
    rewrite (bool_decide_eq_false_2 (c = 92)) by done.
    reflexivity.
Qed.

(** A message with a line or paragraph separator is written out with the
    separator bare, and the literal cannot be read. *)
Lemma escapeMessage_unreadable message : forall rest,
  8232 ∈ message \/ 8233 ∈ message ->
  readLiteral (escapeMessage message ++ 39 :: rest) = None.
Proof.
  intros rest. induction message as [|c message IH]; intros H.
  - destruct H as [H|H]; by apply elem_of_nil in H.
  - rewrite escapeMessage_cons.
    destruct (decide (c = 8232)) as [->|Hc1]; [reflexivity|].
    destruct (decide (c = 8233)) as [->|Hc2]; [reflexivity|].
    assert (IH' : readLiteral (escapeMessage message ++ 39 :: rest) = None).
    { apply IH. destruct H as [H|H]; apply elem_of_cons in H as [?|?];
        try done; auto. }
    repeat case_bool_decide; subst; simpl; rewrite IH'; try reflexivity.
    rewrite (bool_decide_eq_false_2 (c = 39)) by done.
    rewrite isLineTerminator_false by done.
    rewrite (bool_decide_eq_false_2 (c = 92)) by done.
    reflexivity.
Qed.

Lemma escapeMessage_one_line message :
  (10 ∉ escapeMessage message) /\ (13 ∉ escapeMessage message).
Proof.
  induction message as [|c message [IH1 IH2]].
  - split; apply not_elem_of_nil.
  - rewrite escapeMessage_cons.
    repeat case_bool_decide; subst; simpl; split;
      repeat (apply not_elem_of_cons; split; [done|]); done.
Qed.

Lemma escapeMessage_separators c message :
  c = 8232 \/ c = 8233 -> c ∈ escapeMessage message -> c ∈ message.
Proof.
  intros Hc. induction message as [|d message IH].
  - intros H. by apply elem_of_nil in H.
  - rewrite escapeMessage_cons, elem_of_app. intros [H|H].
    + assert (c = d) as ->; [|apply list_elem_of_here].
      repeat case_bool_decide; subst;
        repeat (apply elem_of_cons in H as [H|H]; [destruct Hc; lia|]);
        by apply elem_of_nil in H.
    + apply list_elem_of_further. by apply IH.
Qed.

(** X19: the program text debugPrint builds for print(message) is
    Script.print(' followed by a string literal body.  For a message
    without the line separator U+2028 and the paragraph separator U+2029
    the body reads back as exactly [message], however many backslashes,
    quotes, line feeds and carriage returns the message holds, with only
    the closing parenthesis left after the closing quote, and the program
    holds no line terminator of the script language at all.  A message
    with one of the two separators gives a literal that cannot be read:
    debugPrint writes them out bare.  In every case the program holds
    neither a line feed nor a carriage return. *)
Theorem debugPrint_literal_reads_back message :
  (8232 ∉ message -> 8233 ∉ message ->
   readLiteral (drop 14 (debugPrintProgram message)) = Some (message, [41]) /\
   Forall (fun c => isLineTerminator c = false) (debugPrintProgram message)) /\
  (8232 ∈ message \/ 8233 ∈ message ->
   readLiteral (drop 14 (debugPrintProgram message)) = None) /\
  (10 ∉ debugPrintProgram message) /\ (13 ∉ debugPrintProgram message).
Proof.
  assert (Hin : forall c, c ∈ debugPrintProgram message ->
                          c ∈ escapeMessage message \/
                          c ∈ [83; 99; 114; 105; 112; 116; 46; 112; 114; 105; 110;
                               116; 40; 39; 41]).
  { intros c. unfold debugPrintProgram. rewrite !elem_of_app.
    intros [H|[H|H]]; [right|left; exact H|right].
    - repeat (apply elem_of_cons in H as [->|H];
              [repeat first [apply list_elem_of_here | apply list_elem_of_further]|]).
      by apply elem_of_nil in H.
    - repeat (apply elem_of_cons in H as [->|H];
              [repeat first [apply list_elem_of_here | apply list_elem_of_further]|]).
      by apply elem_of_nil in H. }
  assert (Hfixed : forall c, c ∈ [83; 99; 114; 105; 112; 116; 46; 112; 114; 105; 110;
                                  116; 40; 39; 41] ->
                             isLineTerminator c = false).
  { intros c H.
    repeat (apply elem_of_cons in H as [->|H]; [reflexivity|]).
    by apply elem_of_nil in H. }
  destruct (escapeMessage_one_line message) as [H10 H13].
  split; [|split; [|split]].
  - intros H1 H2. split.
    + unfold debugPrintProgram. simpl. by apply escapeMessage_reads_back.
    + apply list.Forall_forall. intros c Hc. apply Hin in Hc as [Hc|Hc]; [|by apply Hfixed].
      apply isLineTerminator_false.
      * intros ->. done.
      * intros ->. done.
      * intros ->. apply H1. apply (escapeMessage_separators 8232); auto.
      * intros ->. apply H2. apply (escapeMessage_separators 8233); auto.
  - intros H. unfold debugPrintProgram. simpl. by apply escapeMessage_unreadable.
  - intros Hc. apply Hin in Hc as [Hc|Hc]; [done|].
    apply Hfixed in Hc. discriminate.
  - intros Hc. apply Hin in Hc as [Hc|Hc]; [done|].
    apply Hfixed in Hc. discriminate.
Qed.

Lemma debugPrint_literal_reads_back_witness :
  readLiteral (drop 14 (debugPrintProgram [105; 116; 39; 115; 10; 92]))
  = Some ([105; 116; 39; 115; 10; 92], [41]) /\
  readLiteral (drop 14 (debugPrintProgram [97; 8232; 98])) = None.
Proof.
  destruct (debugPrint_literal_reads_back [105; 116; 39; 115; 10; 92])
    as (H1 & _ & _ & _).
  destruct (debugPrint_literal_reads_back [97; 8232; 98]) as (_ & H2 & _ & _).
  split.
  - apply H1.
    + intros H. repeat (apply elem_of_cons in H as [H|H]; [discriminate|]).
      by apply elem_of_nil in H.
    + intros H. repeat (apply elem_of_cons in H as [H|H]; [discriminate|]).
      by apply elem_of_nil in H.
  - apply H2. left. apply list_elem_of_further, list_elem_of_here.
Defined.

(** ** include *)

Lemma evaluate_while_stopping st p s :
  _stoppingAllScripts st = true -> fst (evaluate st p s) = s.
Proof. intros H. unfold evaluate, evaluate_with. by rewrite H. Qed.

(** X20: the function that include() runs when its files have arrived
    skips the urls for which nothing was loaded and evaluates the others
    in list order, so it does the same as on the list of the loaded urls
    alone; and when a stop-all has begun by then, none of the files is
    evaluated, yet a callback that is a function is still called. *)
Theorem include_skips_missing_files st urls data callback s :
  evaluateScripts st urls data callback s
  = evaluateScripts st
      (List.filter (fun url => bool_decide (is_Some (data !! url))) urls)
      data callback s /\
  (_stoppingAllScripts st = true ->
   evaluateScripts st urls data callback s
   = match callback with
     | FunctionValue _ => call st callback s
     | _ => s
     end) /\
  (forall st0, _stoppingAllScripts st0 = false ->
               include st0 st urls data callback s
               = evaluateScripts st urls data callback s).
Proof.
  split; [|split; [|intros st0 H0; unfold include; by rewrite H0]].
  - unfold evaluateScripts.
    assert (Hf : forall l s0,
               foldl (fun s1 url =>
                        match data !! url with
                        | None => s1
                        | Some contents => fst (evaluate st contents s1)
                        end) s0 l
               = foldl (fun s1 url =>
                          match data !! url with
                          | None => s1
                          | Some contents => fst (evaluate st contents s1)
                          end) s0
                   (List.filter (fun url => bool_decide (is_Some (data !! url))) l)).
    { induction l as [|url l IH]; intros s0; [reflexivity|].
      cbn [foldl List.filter]. destruct (data !! url) as [contents|] eqn:E.
      - rewrite bool_decide_eq_true_2 by eauto. cbn [foldl]. rewrite E. apply IH.
      - rewrite bool_decide_eq_false_2 by (intros [x Hx]; discriminate). apply IH. }
    rewrite <- Hf. reflexivity.
  - intros Hst. unfold evaluateScripts.
    assert (Hf : forall l s0,
               foldl (fun s1 url =>
                        match data !! url with
                        | None => s1
                        | Some contents => fst (evaluate st contents s1)
                        end) s0 l = s0).
    { induction l as [|url l IH]; intros s0; [reflexivity|]. cbn [foldl].
      destruct (data !! url); [rewrite evaluate_while_stopping by done|]; apply IH. }
    rewrite Hf. reflexivity.
Qed.

Lemma include_skips_missing_files_witness :
  let st := mkStatics true false in
  let callback := FunctionValue (CallPrint [111; 107] (Return InvalidValue None)) in
  let data : gmap N Script := {[ 4%N := CallPrint [52] (Return InvalidValue None) ]} in
  let s := newScriptEngine (Return InvalidValue None) in
  trace (evaluateScripts st [3%N; 4%N] data callback s) = [printedMessage [111; 107]].
Proof.
  intros st callback data s.
  destruct (include_skips_missing_files st [3%N; 4%N] data callback s) as (_ & H & _).
  rewrite H by reflexivity. reflexivity.
Defined.
